(** * Course System module: a shallow embedding and its properties

    The module exists in two variants with the same public surface:
    - the local-storage variant (catalog mirrored in [localStorage] under the
      key [cp_courses_v1]);
    - the remote-backed variant (catalog fetched from [/api/courses], creation
      and deletion acknowledged by the backend).

    JavaScript objects are modelled as records, arrays as lists, the module
    variable [courseList] as a field of an explicit state, and every effect
    (storage, network, collaborator calls) either as a state component or as
    an entry of an event trace.  Numbers are integers ([Z]), standing for
    the doubles with that value; a sum is rounded to the nearest double as
    the machine does, so that arithmetic is exact up to 2^53 and theorems
    that need exact successors say so.  Fractional values and infinities
    are outside the model; [NaN] is a value of its own where the module
    compares or prints what callers hand in.  Arrays are values: an array handed in by a caller is taken not
    to be shared between records nor changed by the caller afterwards.  Every
    operation runs to completion; the interleaving of other handlers during
    an [await] is outside the model. *)

From Stdlib Require Import ZArith String Sorted.
From Stdlib Require Import DecimalString DecimalPos DecimalZ.
From stdpp Require Import base tactics option numbers list sets strings.

Local Open Scope string_scope.
Local Open Scope list_scope.
Local Open Scope Z_scope.

(** ** JavaScript values *)

(** A value that is a number or a string: user ids, ids passed by callers,
    entries of a user's [enrolledCourses].  [KNaN] is the number [NaN]. *)
Inductive key : Type :=
  | KNum (n : Z)
  | KStr (s : string)
  | KNaN.

#[global] Instance key_eq_dec : EqDecision key.
Proof. solve_decision. Defined.

(** [a === b] on such values: same type and same value, except that
    [NaN] is not equal to anything, itself included. *)
Definition strict_eq (a b : key) : bool :=
  match a, b with
  | KNaN, _ | _, KNaN => false
  | _, _ => bool_decide (a = b)
  end.

(** The integers every one of which is a double of its own:
    [Number.isSafeInteger]. *)
Definition safe_integer (n : Z) : Prop := - 2 ^ 53 < n < 2 ^ 53.

(** [String(v)]: the string itself, ["NaN"], or the decimal notation of an
    integer.  JavaScript prints a safe integer with all its digits; beyond
    that range it prints the shortest digits that read back as the same
    double, and from 10^21 on it uses an exponent, so what depends on the
    printed form of a number is stated for safe integers. *)
Definition js_String (v : key) : string :=
  match v with
  | KNum n => NilZero.string_of_int (Z.to_int n)
  | KStr s => s
  | KNaN => "NaN"
  end.

(** A value whose printed form the model has right. *)
Definition safe_key (v : key) : Prop :=
  match v with
  | KNum n => safe_integer n
  | KStr _ | KNaN => True
  end.

(** The double nearest to an integer, ties going to the even mantissa:
    every integer up to 2^53 in magnitude is kept, a larger one loses its
    low bits.  (Magnitudes that overflow a double, from 2^1024 on, are not
    part of the model; no property below goes beyond 2^53.) *)
Definition to_double (z : Z) : Z :=
  let a := Z.abs z in
  if Z.leb a (2 ^ 53) then z
  else
    let e := Z.log2 a - 52 in
    let q := Z.shiftr a e in
    let r := Z.land a (Z.ones e) in
    let half := 2 ^ (e - 1) in
    let q' := if Z.ltb r half then q
              else if Z.ltb half r then q + 1
              else if Z.even q then q else q + 1 in
    Z.sgn z * Z.shiftl q' e.

(** [a + b] on numbers. *)
Definition js_add (a b : Z) : Z := to_double (a + b).

(** The values a [categories] property can hold.  Array elements are
    category labels (strings); [JObj] stands for any non-array object. *)
Inductive jsval : Type :=
  | JUndefined
  | JNull
  | JBool (b : bool)
  | JNum (n : Z)
  | JStr (s : string)
  | JArr (l : list string)
  | JObj.

(** Truthiness, as used by [if (v)], [v || d] and [v && e]. *)
Definition truthy (v : jsval) : bool :=
  match v with
  | JUndefined | JNull => false
  | JBool b => b
  | JNum n => negb (Z.eqb n 0)
  | JStr s => negb (String.eqb s "")
  | JArr _ | JObj => true
  end.

(** [Array.isArray(v)] *)
Definition isArray (v : jsval) : bool :=
  match v with JArr _ => true | _ => false end.

(** Every array object is truthy, the empty one included. *)
Definition array_truthy {A} (l : list A) : bool := true.

(** [v || d] on an optional number: [undefined] and [0] are falsy. *)
Definition num_or (v : option Z) (d : Z) : Z :=
  match v with
  | Some n => if Z.eqb n 0 then d else n
  | None => d
  end.

(** [v || d] on an optional string: [undefined] and the empty string are
    falsy. *)
Definition str_or (v : option string) (d : string) : string :=
  match v with
  | Some s => if String.eqb s "" then d else s
  | None => d
  end.

(** [v || []] on an optional array. *)
Definition arr_or {A} (v : option (list A)) : list A :=
  match v with
  | Some l => if array_truthy l then l else []
  | None => []
  end.

(** ** Courses *)

(** One entry of [students]: [[userId, dateEnrolled]]. *)
Definition enrollment : Type := key * string.

(** The [Course] typedef.  An optional property is [None] when it is absent
    or holds [undefined]. *)
Record Course : Type := mkCourse {
  id : Z;
  title : string;
  description : option string;
  instructor : option string;
  students : option (list enrollment);
  categories : jsval;
  visits : option Z;
  price : option Z;
  duration : option string
}.

(** [Partial<Course>]: the argument of [createCourse] and [editCourse].
    A field is [None] when the object has no such own property, and
    [Some v] when it has one with value [v]. *)
Record PartialCourse : Type := mkPartial {
  p_id : option Z;
  p_title : option string;
  p_description : option (option string);
  p_instructor : option (option string);
  p_students : option (option (list enrollment));
  p_categories : option jsval;
  p_visits : option (option Z);
  p_price : option (option Z);
  p_duration : option (option string)
}.

(** Reading a property of a partial course: an absent property reads as
    [undefined]. *)
Definition read {A} (p : option (option A)) : option A := p ≫= (λ v, v).

Definition read_categories (p : option jsval) : jsval :=
  match p with Some v => v | None => JUndefined end.

(** [{ ...a, ...b }] on one property: the value of [b] when [b] has the
    property, the value of [a] otherwise. *)
Definition spread {A} (a : A) (b : option A) : A :=
  match b with Some v => v | None => a end.

(** ** Functions shared by both variants *)

(** [_findCourseIndex]: [courseList.findIndex(c => c.id === id)];
    [None] stands for [-1]. *)
Definition _findCourseIndex (cl : list Course) (cid : key) : option nat :=
  fst <$> list_find (λ c, KNum (id c) = cid) cl.

(** [Math.max(x, ...xs)] *)
Definition Math_max (x : Z) (xs : list Z) : Z := foldl Z.max x xs.

(** [_generateUniqueCourseId] *)
Definition _generateUniqueCourseId (cl : list Course) : Z :=
  match id <$> cl with
  | [] => 1
  | x :: xs => js_add (Math_max x xs) 1
  end.

(** The maximum of a list, in the words of the specification. *)
Definition is_max (m : Z) (l : list Z) : Prop :=
  m ∈ l ∧ Forall (λ y, y ≤ m) l.

(** The id rule in the words of the specification: the maximum existing id
    plus one, or 1 when the catalog is empty. *)
Definition next_id_rule (cl : list Course) (n : Z) : Prop :=
  (cl = [] ∧ n = 1) ∨ (∃ m, is_max m (id <$> cl) ∧ n = m + 1).

(** Every id of the catalog is a safe integer, so that the next id is
    computed exactly. *)
Definition ids_safe (cl : list Course) : Prop :=
  Forall (λ c, safe_integer (id c)) cl.

(** Every id of the catalog is a safe integer and leaves room for [room]
    exact successors. *)
Definition ids_in_range (cl : list Course) (room : nat) : Prop :=
  Z.of_nat room ≤ 2 ^ 53 ∧
  Forall (λ c, - 2 ^ 53 < id c ∧ id c + Z.of_nat room ≤ 2 ^ 53) cl.

(** What is claimed of the courses [created] one after the other on top of
    the catalog [cl]: each id follows the rule on the catalog as it is at
    that creation, the ids are strictly increasing, each is larger than
    every id of [cl], and unique ids stay unique. *)
Definition ids_assigned_by_rule (cl created : list Course) : Prop :=
  (∀ k c, created !! k = Some c →
     next_id_rule (cl ++ take k created) (id c)) ∧
  StronglySorted Z.lt (id <$> created) ∧
  Forall (λ c, Forall (λ c0, id c0 < id c) cl) created ∧
  (NoDup (id <$> cl) → NoDup (id <$> (cl ++ created))).

(** The guard of [createCourse]: [!course || !course.title]. *)
Definition has_title (arg : option PartialCourse) : option PartialCourse :=
  match arg with
  | Some course =>
      match p_title course with
      | Some t => if String.eqb t "" then None else Some course
      | None => None
      end
  | None => None
  end.

(** The object literal of [createCourse]. *)
Definition newCourse (course : PartialCourse) (newId : Z) : Course :=
  {| id := newId;
     title := default "" (p_title course);
     description := read (p_description course);
     instructor := read (p_instructor course);
     students := Some (arr_or (read (p_students course)));
     categories :=
       (let v := read_categories (p_categories course) in
        if truthy v then v else JArr []);
     visits := Some (num_or (read (p_visits course)) 0);
     price := Some (num_or (read (p_price course)) 0);
     duration := Some (str_or (read (p_duration course)) "N/A") |}.

(** [getCourse]: [courseList.find(c => c.id === id) || null] *)
Definition getCourse (cl : list Course) (cid : key) : option Course :=
  snd <$> list_find (λ c, KNum (id c) = cid) cl.

(** How a call completes: with a value, or by throwing a [TypeError]. *)
Inductive completion (A : Type) : Type :=
  | Normal (v : A)
  | Throw.
Arguments Normal {A} v.
Arguments Throw {A}.

(** [[...v]]: an array spreads into its elements and a string into its
    characters (one per byte here); any other value is not iterable. *)
Definition iterate (v : jsval) : completion (list string) :=
  match v with
  | JArr l => Normal l
  | JStr s => Normal ((λ a, String a EmptyString) <$> list_ascii_of_string s)
  | _ => Throw
  end.

(** [s.add(x)] on a [Set], kept as the list of its elements in insertion
    order. *)
Definition Set_add (s : list string) (x : string) : list string :=
  if decide (x ∈ s) then s else s ++ [x].

(** [[...new Set(l)]] *)
Definition new_Set (l : list string) : list string := foldl Set_add [] l.

(** Set union preserving first-seen order, in the words of the
    specification: every label is kept at its first occurrence. *)
Fixpoint first_seen (l : list string) : list string :=
  match l with
  | [] => []
  | x :: l' => x :: filter (λ y, y ≠ x) (first_seen l')
  end.

(** [Array.isArray(v) ? v : []] *)
Definition as_array (v : jsval) : list string :=
  match v with JArr l => l | _ => [] end.

(** [courseList[idx].categories || []] *)
Definition oldCategories (v : jsval) : jsval :=
  if truthy v then v else JArr [].

(** The [if (data.categories) { ... }] block of [editCourse]: the value of
    [data.categories] after it, given the course's current categories.  (The
    block assigns to the caller's object; only the value matters here.) *)
Definition union_categories (old : jsval) (data_categories : option jsval)
  : completion (option jsval) :=
  if truthy (read_categories data_categories) then
    let new := JArr (as_array (read_categories data_categories)) in
    match iterate (oldCategories old), iterate new with
    | Normal o, Normal n => Normal (Some (JArr (new_Set (o ++ n))))
    | _, _ => Throw
    end
  else Normal data_categories.

(** [{ ...c, ...data }] *)
Definition merge (c : Course) (data : PartialCourse) : Course :=
  {| id := spread (id c) (p_id data);
     title := spread (title c) (p_title data);
     description := spread (description c) (p_description data);
     instructor := spread (instructor c) (p_instructor data);
     students := spread (students c) (p_students data);
     categories := spread (categories c) (p_categories data);
     visits := spread (visits c) (p_visits data);
     price := spread (price c) (p_price data);
     duration := spread (duration c) (p_duration data) |}.

Definition with_categories (data : PartialCourse) (v : option jsval)
  : PartialCourse :=
  {| p_id := p_id data; p_title := p_title data;
     p_description := p_description data; p_instructor := p_instructor data;
     p_students := p_students data; p_categories := v;
     p_visits := p_visits data; p_price := p_price data;
     p_duration := p_duration data |}.

(** The part of [editCourse] both variants share: the new catalog and the
    updated course, [None] when the id is not found. *)
Definition edit (cl : list Course) (cid : key) (data : PartialCourse)
  : completion (option (list Course * Course)) :=
  match list_find (λ c, KNum (id c) = cid) cl with
  | None => Normal None
  | Some (idx, c) =>
      match union_categories (categories c) (p_categories data) with
      | Throw => Throw
      | Normal cats =>
          let c' := merge c (with_categories data cats) in
          Normal (Some (<[idx := c']> cl, c'))
      end
  end.

Definition with_students (c : Course) (s : option (list enrollment)) : Course :=
  {| id := id c; title := title c; description := description c;
     instructor := instructor c; students := s; categories := categories c;
     visits := visits c; price := price c; duration := duration c |}.

Definition with_visits (c : Course) (v : option Z) : Course :=
  {| id := id c; title := title c; description := description c;
     instructor := instructor c; students := students c;
     categories := categories c; visits := v; price := price c;
     duration := duration c |}.

(** [c.students.some(s => s[0] === userId)] *)
Definition enrolled (userId : key) (l : list enrollment) : bool :=
  existsb (λ s, strict_eq (fst s) userId) l.

(** The part of [enrollUser] both variants share; [now] is
    [new Date().toISOString()].  The course object is updated in place, that
    is at the index where [getCourse] found it.  [None] is the result
    [false].  The students of a course are kept as a value of that course:
    where two course objects were handed one array, the [push] of the code
    shows in both, so what is stated of an enrollment is stated of the
    course it finds. *)
Definition enroll (cl : list Course) (userId cid : key) (now : string)
  : option (list Course) :=
  match list_find (λ c, KNum (id c) = cid) cl with
  | None => None
  | Some (idx, c) =>
      let l := arr_or (students c) in
      if enrolled userId l then None
      else Some (<[idx := with_students c (Some (l ++ [(userId, now)]))]> cl)
  end.

(** The part of [incrementVisits] both variants share. *)
Definition visit (cl : list Course) (cid : key) : option (list Course * Z) :=
  match list_find (λ c, KNum (id c) = cid) cl with
  | None => None
  | Some (idx, c) =>
      let v := js_add (num_or (visits c) 0) 1 in
      Some (<[idx := with_visits c (Some v)]> cl, v)
  end.

(** [Array.prototype.sort(cmp)]: a stable sort; the element [a] goes before
    [b] when [cmp a b <= 0] and [a] came first.  Written as an insertion sort
    that inserts from the right. *)
Fixpoint sort_insert {A} (cmp : A → A → Z) (x : A) (l : list A) : list A :=
  match l with
  | [] => [x]
  | y :: l' => if Z.leb (cmp x y) 0 then x :: l else y :: sort_insert cmp x l'
  end.

Definition sort {A} (cmp : A → A → Z) (l : list A) : list A :=
  foldr (sort_insert cmp) [] l.

(** The comparator [(a, b) => key(b) - key(a)]. *)
Definition descending {A} (key : A → Z) : A → A → Z := λ a b, key b - key a.

(** [c.students?.length || 0] *)
Definition enrollments (c : Course) : Z :=
  match students c with
  | Some l => Z.of_nat (length l)
  | None => 0
  end.

(** [c.visits || 0] *)
Definition visited (c : Course) : Z := num_or (visits c) 0.

Record Analytics : Type := mkAnalytics {
  totalCourses : Z;
  totalEnrollments : Z;
  topCourses : list Course;
  topVisited : list Course
}.

(** [getAnalytics] *)
Definition getAnalytics (cl : list Course) : Analytics :=
  {| totalCourses := Z.of_nat (length cl);
     totalEnrollments := foldl (λ acc c, acc + enrollments c) 0 cl;
     topCourses := take 3 (sort (descending enrollments) cl);
     topVisited := take 3 (sort (descending visited) cl) |}.

(** [getAnalytics] once more, with the arrays in memory.  [sort] works
    in place, so here the arrays live in a store, by address: the module
    variable [courseList] holds the address of the catalog, [[...a]] and
    [slice] make new arrays, [sort] changes the one it is called on. *)
Definition array_at (h : list (list Course)) (a : nat) : list Course := default [] (h !! a).

(** A new array gets the next free address. *)
Definition new_array (h : list (list Course)) (l : list Course) : list (list Course) * nat :=
  (h ++ [l], length h).

(** [[...a]] *)
Definition spread_array (h : list (list Course)) (a : nat) : list (list Course) * nat :=
  new_array h (array_at h a).

(** [a.sort(cmp)]: sorts the array at [a] in place and returns it. *)
Definition sort_in_place (cmp : Course → Course → Z) (h : list (list Course)) (a : nat)
  : list (list Course) * nat :=
  (alter (sort cmp) a h, a).

(** [a.slice(0, 3)] *)
Definition slice_0_3 (h : list (list Course)) (a : nat) : list (list Course) * nat :=
  new_array h (take 3 (array_at h a)).

(** The object [getAnalytics] returns: two numbers and the addresses of
    two arrays. *)
Record AnalyticsRef : Type := mkAnalyticsRef {
  totalCourses_of : Z;
  totalEnrollments_of : Z;
  topCourses_at : nat;
  topVisited_at : nat
}.

Definition getAnalytics_in (h : list (list Course)) (courseList : nat)
  : list (list Course) * AnalyticsRef :=
  let total := Z.of_nat (length (array_at h courseList)) in
  let enrolled_total :=
    foldl (λ acc c, acc + enrollments c) 0 (array_at h courseList) in
  let (h1, copy) := spread_array h courseList in
  let (h2, sorted) := sort_in_place (descending enrollments) h1 copy in
  let (h3, top) := slice_0_3 h2 sorted in
  let (h4, copy') := spread_array h3 courseList in
  let (h5, sorted') := sort_in_place (descending visited) h4 copy' in
  let (h6, top') := slice_0_3 h5 sorted' in
  (h6, {| totalCourses_of := total; totalEnrollments_of := enrolled_total;
          topCourses_at := top; topVisited_at := top' |}).

(** The returned object with its arrays read from the store. *)
Definition analytics_at (h : list (list Course)) (r : AnalyticsRef) : Analytics :=
  {| totalCourses := totalCourses_of r;
     totalEnrollments := totalEnrollments_of r;
     topCourses := array_at h (topCourses_at r);
     topVisited := array_at h (topVisited_at r) |}.

(** An argument object with a title and nothing else: [{ title: t }]. *)
Definition titled (t : string) : PartialCourse :=
  {| p_id := None; p_title := Some t; p_description := None;
     p_instructor := None; p_students := None; p_categories := None;
     p_visits := None; p_price := None; p_duration := None |}.

(** A patch with categories and nothing else: [{ categories: v }]. *)
Definition categories_patch (v : jsval) : PartialCourse :=
  {| p_id := None; p_title := None; p_description := None;
     p_instructor := None; p_students := None; p_categories := Some v;
     p_visits := None; p_price := None; p_duration := None |}.

(** A stable descending ranking, in the words of the specification: the
    same courses, ordered by [key] descending, ties kept in catalog order
    (for every value of the key, the courses having it appear as they do in
    the catalog). *)
Definition stable_desc {A} (key : A → Z) (l ranked : list A) : Prop :=
  ranked ≡ₚ l ∧
  StronglySorted (λ a b, key b ≤ key a) ranked ∧
  ∀ k, filter (λ c, key c = k) ranked = filter (λ c, key c = k) l.

(** The sum of [f] over a list. *)
Definition sum_of {A} (f : A → Z) (l : list A) : Z :=
  foldr (λ c s, f c + s) 0 l.

(** A course with [n] students and [v] visits, for the examples. *)
Definition sample_course (i : Z) (t : string) (n : nat) (v : Z) : Course :=
  {| id := i; title := t; description := None; instructor := None;
     students :=
       Some (imap (λ k _, (KNum (Z.of_nat k), "2024-01-01T00:00:00.000Z"))
                  (replicate n ()));
     categories := JArr []; visits := Some v; price := Some 0;
     duration := Some "N/A" |}.

(** A given user id appears at most once among the students of every
    course of the catalog. *)
Definition unique_students (cl : list Course) : Prop :=
  Forall (λ c, NoDup (fst <$> arr_or (students c))) cl.

(** The students a caller hands to [createCourse] or [editCourse], when it
    hands any, name no user id twice. *)
Definition supplies_unique (course : PartialCourse) : Prop :=
  match p_students course with
  | Some s => NoDup (fst <$> arr_or s)
  | None => True
  end.

(** A creation argument with a title and students: [{ title, students }]. *)
Definition titled_with_students (t : string) (l : list enrollment)
  : PartialCourse :=
  {| p_id := None; p_title := Some t; p_description := None;
     p_instructor := None; p_students := Some (Some l); p_categories := None;
     p_visits := None; p_price := None; p_duration := None |}.

(** ** Collaborators: User Directory and Progress Tracker *)

(** Modelled from the spec: the user records of [userSystem.js], which is
    imported by the module but is not among its sources.  A user has a role
    and an enrolled-courses list; [userName] stands for the properties that
    a patch of the list leaves alone. *)
Record User : Type := mkUser {
  userName : string;
  role : string;
  enrolledCourses : list key
}.

(** Calls the module makes to the outside, in the order it makes them. *)
Inductive Event : Type :=
  | CleanupCourseData (courseId : key)
  | UpdateUser (i : nat) (remainingCourses : list key)
  | FetchCourses
  | FetchAdd (body : Course)
  | FetchDelete (cid : key).

#[global] Instance Event_get_dec (e : Event) : Decision (e = FetchCourses).
Proof. destruct e; (by left) || (by right). Defined.

(** Modelled from the spec: [updateUser(user, patch)] of [userSystem.js]
    "persists a shallow patch to one user record".  The record is the one
    the object [user] was listed from, given here by its index in the
    directory; the patch is [{ enrolledCourses: remainingCourses }]. *)
Definition updateUser (dir : list User) (i : nat) (remainingCourses : list key)
  : list User :=
  alter (λ u, {| userName := userName u; role := role u;
                 enrolledCourses := remainingCourses |}) i dir.

(** [student.enrolledCourses.filter(course =>
      String(course) !== String(courseId))] *)
Definition remainingCourses (courseId : key) (student : User) : list key :=
  filter (λ course, js_String course ≠ js_String courseId)
         (enrolledCourses student).

(** The steps of [courseDeletion] after a successful delete: the call of
    [cleanupCourseData], then one [updateUser] per user of [listUsers()]
    whose role is ["student"]. *)
Definition cascade (courseId : key) (dir : list User) (tr : list Event)
  : list User * list Event :=
  let students := filter (λ iu, role iu.2 = "student") (imap pair dir) in
  foldl (λ acc iu,
           let remaining := remainingCourses courseId iu.2 in
           (updateUser acc.1 iu.1 remaining,
            acc.2 ++ [UpdateUser iu.1 remaining]))
        (dir, tr ++ [CleanupCourseData courseId]) students.

(** What the cascade is to achieve, user by user: a student loses every
    reference to the course, any other user is left as it is. *)
Definition unenrolled (courseId : key) (u : User) : User :=
  if decide (role u = "student")
  then {| userName := userName u; role := role u;
          enrolledCourses := remainingCourses courseId u |}
  else u.

(** The [updateUser] calls of the cascade, in directory order. *)
Definition update_calls (courseId : key) (dir : list User) : list Event :=
  (λ iu, UpdateUser iu.1 (remainingCourses courseId iu.2))
    <$> filter (λ iu, role iu.2 = "student") (imap pair dir).

(** The user step of the cascade, entry by entry: every user keeps its
    place, name and role; a user that is not a student keeps its list; a
    student keeps, in order, exactly the entries whose string form differs
    from the string form of the course id. *)
Definition string_matched_removal (courseId : key) (dir dir' : list User)
  : Prop :=
  length dir' = length dir ∧
  ∀ i u, dir !! i = Some u →
    ∃ u', dir' !! i = Some u' ∧
      userName u' = userName u ∧ role u' = role u ∧
      (role u ≠ "student" → enrolledCourses u' = enrolledCourses u) ∧
      (role u = "student" →
         enrolledCourses u'
         = filter (λ e, js_String e ≠ js_String courseId) (enrolledCourses u) ∧
         ∀ e, e ∈ enrolledCourses u →
              (e ∉ enrolledCourses u' ↔ js_String e = js_String courseId)).

(** The [updateUser] calls that leave the directory [dir']: one per
    student, in directory order, each with the list that student ends
    with. *)
Definition update_calls_of (dir' : list User) : list Event :=
  (λ iu, UpdateUser iu.1 (enrolledCourses iu.2))
    <$> filter (λ iu, role iu.2 = "student") (imap pair dir').

(** [idx] is the place of the first course of [cl] whose id strictly
    equals [courseId]. *)
Definition first_with_id (courseId : key) (cl : list Course) (idx : nat)
  : Prop :=
  (∃ c, cl !! idx = Some c ∧ KNum (id c) = courseId) ∧
  ∀ j c, cl !! j = Some c → (j < idx)%nat → KNum (id c) ≠ courseId.

(** Every entry of every enrolled-courses list is a string or a safe
    integer (or [NaN]): the values whose string form [js_String] gives. *)
Definition keys_safe (dir : list User) : Prop :=
  Forall (λ u, Forall safe_key (enrolledCourses u)) dir.

(** What a successful cascading deletion leaves behind ([cl'], [dir'],
    [tr']) from the catalog [cl], the directory [dir] and the trace [tr]
    at the start of the cascade: the first course with the id is gone and
    the others are kept in order; one cleanup call was made, then one
    update per student; every student lost the entries with the string
    form of the id, so none refers to the id; and when no two courses
    shared an id, no course with the id is left. *)
Definition cascaded (courseId : key) (cl : list Course)
    (dir : list User) (tr : list Event)
    (cl' : list Course) (dir' : list User) (tr' : list Event) : Prop :=
  (∃ idx, first_with_id courseId cl idx ∧
          cl' = take idx cl ++ drop (S idx) cl) ∧
  tr' = tr ++ CleanupCourseData courseId :: update_calls_of dir' ∧
  string_matched_removal courseId dir dir' ∧
  (∀ u, u ∈ dir' → role u = "student" → courseId ∉ enrolledCourses u) ∧
  (NoDup (id <$> cl) → ∀ c, c ∈ cl' → KNum (id c) ≠ courseId).

(** A small directory: a student, an instructor, another student. *)
Definition sample_users : list User :=
  [ {| userName := "Lina"; role := "student";
       enrolledCourses := [KNum 1; KStr "2"; KStr "1"; KNum 12] |};
    {| userName := "Sama"; role := "instructor";
       enrolledCourses := [KNum 1] |};
    {| userName := "Omar"; role := "student";
       enrolledCourses := [KNum 2] |} ].

(** ** The local-storage variant *)

Module Local.

(** What [localStorage] holds under [cp_courses_v1]. *)
Inductive stored : Type :=
  | NoItem                      (* [getItem] returns [null] *)
  | Unreadable                  (* text that [JSON.parse] rejects *)
  | Falsy                       (* text of [null], [false], [0] or [""] *)
  | Catalog (l : list Course).  (* text of an array of courses *)

Record State : Type := mkState {
  courseList : list Course;
  localStorage : stored;
  writable : bool;              (* whether [setItem] succeeds *)
  users : list User;
  trace : list Event
}.

Definition set_courseList (st : State) (cl : list Course) : State :=
  {| courseList := cl; localStorage := localStorage st;
     writable := writable st; users := users st; trace := trace st |}.

Definition set_localStorage (st : State) (s : stored) : State :=
  {| courseList := courseList st; localStorage := s;
     writable := writable st; users := users st; trace := trace st |}.

(** [JSON.parse(localStorage.getItem(STORAGE_KEY_COURSES))]:
    [JSON.parse(null)] is [null]. *)
Definition JSON_parse_item (s : stored) : completion (option (list Course)) :=
  match s with
  | NoItem => Normal None
  | Unreadable => Throw
  | Falsy => Normal None
  | Catalog l => Normal (Some l)
  end.

(** [loadCourses] *)
Definition loadCourses (s : stored) : list Course :=
  match JSON_parse_item s with
  | Normal v => arr_or v
  | Throw => []
  end.

Definition multimedia_basics : Course :=
  {| id := 1; title := "Multimedia Basics";
     description := Some "Intro to multimedia";
     instructor := Some "Jana"; students := Some [];
     categories := JArr ["multimedia"; "basics"];
     visits := Some 0; price := Some 200; duration := Some "3 Weeks" |}.

Definition graphic_design : Course :=
  {| id := 2; title := "Graphic Design";
     description := Some "Basics of GD";
     instructor := Some "Sama"; students := Some [];
     categories := JArr ["graphic"; "design"];
     visits := Some 0; price := Some 250; duration := Some "4 Weeks" |}.

(** The array literal after [||] in the initializer of [courseList]. *)
Definition seed : list Course := [multimedia_basics; graphic_design].

(** The initializer of the module variable:
    [courseList = loadCourses() || [ ...seed ]]. *)
Definition initial_courseList (s : stored) : list Course :=
  let loaded := loadCourses s in
  if array_truthy loaded then loaded else seed.

Definition init (s : stored) (w : bool) (dir : list User) : State :=
  {| courseList := initial_courseList s; localStorage := s;
     writable := w; users := dir; trace := [] |}.

(** [saveCourses]: a failing [setItem] is ignored. *)
Definition saveCourses (st : State) : State :=
  if writable st then set_localStorage st (Catalog (courseList st)) else st.

(** [createCourse]; [None] is the result [null]. *)
Definition createCourse (st : State) (arg : option PartialCourse)
  : State * option Course :=
  match has_title arg with
  | None => (st, None)
  | Some course =>
      let newId := _generateUniqueCourseId (courseList st) in
      let c := newCourse course newId in
      (saveCourses (set_courseList st (courseList st ++ [c])), Some c)
  end.

(** [editCourse] *)
Definition editCourse (st : State) (cid : key) (data : PartialCourse)
  : State * completion (option Course) :=
  match edit (courseList st) cid data with
  | Throw => (st, Throw)
  | Normal None => (st, Normal None)
  | Normal (Some (cl, c)) =>
      (saveCourses (set_courseList st cl), Normal (Some c))
  end.

(** [deleteCourse] *)
Definition deleteCourse (st : State) (cid : key) : State * bool :=
  match _findCourseIndex (courseList st) cid with
  | None => (st, false)
  | Some idx =>
      (saveCourses (set_courseList st (delete idx (courseList st))), true)
  end.

(** [listCourses] *)
Definition listCourses (st : State) : list Course := courseList st.

(** [incrementVisits] *)
Definition incrementVisits (st : State) (courseId : key) : State * option Z :=
  match visit (courseList st) courseId with
  | None => (st, None)
  | Some (cl, v) => (saveCourses (set_courseList st cl), Some v)
  end.

(** [enrollUser] *)
Definition enrollUser (st : State) (userId courseId : key) (now : string)
  : State * bool :=
  match enroll (courseList st) userId courseId now with
  | None => (st, false)
  | Some cl => (saveCourses (set_courseList st cl), true)
  end.

(** [resetAllCourses] *)
Definition resetAllCourses (st : State) : State :=
  set_localStorage (set_courseList st []) NoItem.

(** [courseDeletion] *)
Definition courseDeletion (st : State) (courseId : key) : State * bool :=
  let (st1, courseDeleted) := deleteCourse st courseId in
  if courseDeleted then
    let (dir, tr) := cascade courseId (users st1) (trace st1) in
    ({| courseList := courseList st1; localStorage := localStorage st1;
        writable := writable st1; users := dir; trace := tr |}, true)
  else (st1, false).

(** Consecutive [createCourse] calls. *)
Fixpoint createCourse_run (st : State) (args : list (option PartialCourse))
  : State * list (option Course) :=
  match args with
  | [] => (st, [])
  | a :: args' =>
      let (st1, r) := createCourse st a in
      let (st2, rs) := createCourse_run st1 args' in
      (st2, r :: rs)
  end.

(** The mutating operations of the repository, as one call each. *)
Inductive Op : Type :=
  | OpCreate (arg : option PartialCourse)
  | OpEdit (cid : key) (data : PartialCourse)
  | OpEnroll (userId courseId : key) (now : string)
  | OpVisit (courseId : key)
  | OpDelete (cid : key)
  | OpCourseDeletion (courseId : key).

(** The state after one call. *)
Definition step (st : State) (op : Op) : State :=
  match op with
  | OpCreate arg => (createCourse st arg).1
  | OpEdit cid data => (editCourse st cid data).1
  | OpEnroll userId courseId now => (enrollUser st userId courseId now).1
  | OpVisit courseId => (incrementVisits st courseId).1
  | OpDelete cid => (deleteCourse st cid).1
  | OpCourseDeletion courseId => (courseDeletion st courseId).1
  end.

(** Whether a call can be trusted with the students: the argument of
    [createCourse] or [editCourse] supplies none, or supplies them without
    repeating a user id, and [enrollUser] is not handed [NaN], which its
    comparison never finds. *)
Definition well_supplied (op : Op) : Prop :=
  match op with
  | OpCreate (Some course) => supplies_unique course
  | OpEdit _ data => supplies_unique data
  | OpEnroll userId _ _ => userId ≠ KNaN
  | _ => True
  end.

End Local.

(** ** The remote-backed variant *)

Module Remote.

(** How [fetch('/api/courses')] and [response.json()] turn out. *)
Inductive get_response : Type :=
  | GetNetworkError             (* [fetch] rejects *)
  | GetNotOk                    (* [response.ok] is false *)
  | GetBadBody                  (* [response.json()] rejects *)
  | GetOk (data : list Course).

(** How a write request ([/api/courses/add], [/api/courses/delete])
    turns out. *)
Inductive write_response : Type :=
  | NetworkError                (* [fetch] rejects *)
  | NotOk                       (* [response.ok] is false *)
  | Ok.

Record State : Type := mkState {
  courseList : list Course;
  users : list User;
  trace : list Event
}.

(** The module as loaded: [courseList = []]. *)
Definition init (dir : list User) : State :=
  {| courseList := []; users := dir; trace := [] |}.

Definition set_courseList (st : State) (cl : list Course) : State :=
  {| courseList := cl; users := users st; trace := trace st |}.

Definition log (st : State) (e : Event) : State :=
  {| courseList := courseList st; users := users st;
     trace := trace st ++ [e] |}.

(** [fetchCourses] *)
Definition fetchCourses (st : State) (r : get_response)
  : State * list Course :=
  let st1 := log st FetchCourses in
  match r with
  | GetOk data => (set_courseList st1 data, data)
  | _ => (st1, [])
  end.

(** The catalog [createCourse] generates the id from: the catalog itself
    when it is not empty, what the refresh leaves otherwise. *)
Definition refreshed (st : State) (rget : get_response) : list Course :=
  match courseList st, rget with
  | [], GetOk data => data
  | cl, _ => cl
  end.

(** [createCourse]; [rget] answers the refresh made when the catalog is
    empty, [radd] answers the POST. *)
Definition createCourse (st : State) (arg : option PartialCourse)
    (rget : get_response) (radd : write_response) : State * option Course :=
  match has_title arg with
  | None => (st, None)
  | Some course =>
      let st1 := match courseList st with
                 | [] => (fetchCourses st rget).1
                 | _ :: _ => st
                 end in
      let newId := _generateUniqueCourseId (courseList st1) in
      let c := newCourse course newId in
      let st2 := log st1 (FetchAdd c) in
      match radd with
      | Ok => (set_courseList st2 (courseList st2 ++ [c]), Some c)
      | NotOk => (st2, None)
      | NetworkError => (st2, None)
      end
  end.

(** [editCourse]: local only. *)
Definition editCourse (st : State) (cid : key) (data : PartialCourse)
  : State * completion (option Course) :=
  match edit (courseList st) cid data with
  | Throw => (st, Throw)
  | Normal None => (st, Normal None)
  | Normal (Some (cl, c)) => (set_courseList st cl, Normal (Some c))
  end.

(** [deleteCourse]; [rdel] answers the DELETE. *)
Definition deleteCourse (st : State) (cid : key) (rdel : write_response)
  : State * bool :=
  match _findCourseIndex (courseList st) cid with
  | None => (st, false)
  | Some idx =>
      let st1 := log st (FetchDelete cid) in
      match rdel with
      | Ok => (set_courseList st1 (delete idx (courseList st1)), true)
      | NotOk => (st1, false)
      | NetworkError => (st1, false)
      end
  end.

(** [listCourses]; [rget] answers the load, when one is made. *)
Definition listCourses (st : State) (rget : get_response)
  : State * list Course :=
  match courseList st with
  | [] => fetchCourses st rget
  | _ :: _ => (st, courseList st)
  end.

(** [incrementVisits]: local only. *)
Definition incrementVisits (st : State) (courseId : key) : State * option Z :=
  match visit (courseList st) courseId with
  | None => (st, None)
  | Some (cl, v) => (set_courseList st cl, Some v)
  end.

(** [enrollUser]: local only. *)
Definition enrollUser (st : State) (userId courseId : key) (now : string)
  : State * bool :=
  match enroll (courseList st) userId courseId now with
  | None => (st, false)
  | Some cl => (set_courseList st cl, true)
  end.

(** [resetAllCourses] *)
Definition resetAllCourses (st : State) : State := set_courseList st [].

(** [courseDeletion] *)
Definition courseDeletion (st : State) (courseId : key)
    (rdel : write_response) : State * bool :=
  let (st1, courseDeleted) := deleteCourse st courseId rdel in
  if courseDeleted then
    let (dir, tr) := cascade courseId (users st1) (trace st1) in
    ({| courseList := courseList st1; users := dir; trace := tr |}, true)
  else (st1, false).

(** A run of [listCourses] calls, one prospective answer per call; the
    results are collected in call order. *)
Fixpoint listCourses_run (st : State) (rs : list get_response)
  : State * list (list Course) :=
  match rs with
  | [] => (st, [])
  | r :: rs' =>
      let (st1, res) := listCourses st r in
      let (st2, ress) := listCourses_run st1 rs' in
      (st2, res :: ress)
  end.

(** Consecutive [createCourse] calls, each with the answers the backend
    gives to it. *)
Fixpoint createCourse_run (st : State)
    (calls : list (option PartialCourse * get_response * write_response))
  : State * list (option Course) :=
  match calls with
  | [] => (st, [])
  | (arg, rget, radd) :: calls' =>
      let (st1, r) := createCourse st arg rget radd in
      let (st2, rs) := createCourse_run st1 calls' in
      (st2, r :: rs)
  end.

(** The number of catalog loads issued so far. *)
Definition loads (st : State) : nat :=
  length (filter (λ e, e = FetchCourses) (trace st)).

End Remote.

(** ** Search, and sessions of calls *)

(** [s.includes(p)] on strings: [p] occurs somewhere in [s]. *)
Fixpoint String_includes (s p : string) : bool :=
  String.prefix p s ||
  match s with
  | EmptyString => false
  | String _ s' => String_includes s' p
  end.

(** [c.categories && c.categories.includes(category)], as the truth value
    the filter sees: a falsy [categories] ends the conjunction, an array is
    searched for the label, a string for the substring; any other truthy
    value has no [includes] method and the call throws. *)
Definition categories_include (v : jsval) (category : string)
  : completion bool :=
  if truthy v then
    match v with
    | JArr l => Normal (bool_decide (category ∈ l))
    | JStr s => Normal (String_includes s category)
    | _ => Throw
    end
  else Normal false.

(** [l.filter(f)] for a callback that may throw. *)
Fixpoint filter_with {A} (f : A → completion bool) (l : list A)
  : completion (list A) :=
  match l with
  | [] => Normal []
  | x :: l' =>
      match f x with
      | Throw => Throw
      | Normal b =>
          match filter_with f l' with
          | Throw => Throw
          | Normal r => Normal (if b then x :: r else r)
          end
      end
  end.

(** [searchCoursesByCategory]; the argument is any value. *)
Definition searchCoursesByCategory (cl : list Course) (category : jsval)
  : completion (list Course) :=
  match category with
  | JStr s =>
      if String.eqb s "" then Normal []
      else filter_with (λ c, categories_include (categories c) s) cl
  | _ => Normal []
  end.

(** The catalog as the typedef has it: every [categories] is an array, or
    is missing. *)
Definition categories_typed (cl : list Course) : Prop :=
  Forall (λ c, truthy (categories c) = false ∨ ∃ l, categories c = JArr l) cl.

Module Session.

(** A call on the local-storage variant: one of the operations, or
    [resetAllCourses]. *)
Inductive Call : Type :=
  | Do (op : Local.Op)
  | Reset.

Definition step (st : Local.State) (c : Call) : Local.State :=
  match c with
  | Do op => Local.step st op
  | Reset => Local.resetAllCourses st
  end.

(** The calls of a page session, in order. *)
Definition run (st : Local.State) (calls : list Call) : Local.State :=
  foldl step st calls.

(** Loading the module again (a fresh page load) would start from the
    catalog now in memory. *)
Definition reload_agrees (st : Local.State) : Prop :=
  Local.initial_courseList (Local.localStorage st) = Local.courseList st.

(** The patch of an [editCourse] call has no [id] property. *)
Definition keeps_id (c : Call) : Prop :=
  match c with
  | Do (Local.OpEdit _ data) => p_id data = None
  | _ => True
  end.

(** The same state with a store that accepts ([true]) or refuses
    ([false]) writes. *)
Definition set_writable (st : Local.State) (w : bool) : Local.State :=
  {| Local.courseList := Local.courseList st;
     Local.localStorage := Local.localStorage st;
     Local.writable := w;
     Local.users := Local.users st;
     Local.trace := Local.trace st |}.

End Session.

(** * Properties *)

(** ** Identifiers *)

Lemma Math_max_lower (xs : list Z) (x : Z) : x ≤ Math_max x xs.
Proof.
  unfold Math_max. revert x.
  induction xs as [|y ys IH]; intros x; simpl; [lia|].
  specialize (IH (Z.max x y)). lia.
Qed.

Lemma Math_max_upper (xs : list Z) (x : Z) :
  Forall (λ y, y ≤ Math_max x xs) xs.
Proof.
  revert x. induction xs as [|y ys IH]; intros x; [constructor|].
  constructor.
  - pose proof (Math_max_lower ys (Z.max x y)) as H.
    unfold Math_max in *. simpl. lia.
  - apply (IH (Z.max x y)).
Qed.

Lemma Math_max_elem (xs : list Z) (x : Z) : Math_max x xs ∈ x :: xs.
Proof.
  unfold Math_max. revert x.
  induction xs as [|y ys IH]; intros x; simpl; [set_solver|].
  specialize (IH (Z.max x y)). revert IH.
  rewrite !elem_of_cons.
  destruct (Z.max_spec x y) as [[_ ->]|[_ ->]]; tauto.
Qed.

Lemma to_double_exact (z : Z) : Z.abs z ≤ 2 ^ 53 → to_double z = z.
Proof.
  intros H. unfold to_double.
  by destruct (Z.leb_spec (Z.abs z) (2 ^ 53)); [|lia].
Qed.

Lemma js_add_exact (a b : Z) :
  - 2 ^ 53 ≤ a + b ≤ 2 ^ 53 → js_add a b = a + b.
Proof. intros H. apply to_double_exact. lia. Qed.

Lemma generate_empty : _generateUniqueCourseId [] = 1.
Proof. reflexivity. Qed.

Lemma generate_max (cl : list Course) :
  cl ≠ [] → ids_safe cl →
  ∃ m, is_max m (id <$> cl) ∧ _generateUniqueCourseId cl = m + 1.
Proof.
  intros Hne Hsafe. unfold _generateUniqueCourseId.
  destruct cl as [|c cl]; [done|]. simpl.
  exists (Math_max (id c) (id <$> cl)).
  assert (is_max (Math_max (id c) (id <$> cl)) (id <$> c :: cl)) as Hmax.
  { split; [apply Math_max_elem|].
    constructor; [apply Math_max_lower | apply Math_max_upper]. }
  split; [done|]. apply js_add_exact.
  destruct Hmax as [(c0 & -> & Hc0)%list_elem_of_fmap _].
  unfold ids_safe in Hsafe. rewrite Forall_forall in Hsafe.
  specialize (Hsafe c0 Hc0). unfold safe_integer in Hsafe. lia.
Qed.

Lemma generate_fresh (cl : list Course) :
  ids_safe cl → Forall (λ c, id c < _generateUniqueCourseId cl) cl.
Proof.
  intros Hsafe. destruct cl as [|c cl]; [constructor|].
  destruct (generate_max (c :: cl)) as (m & [_ Hm] & ->); [done..|].
  rewrite Forall_fmap in Hm.
  eapply Forall_impl; [exact Hm|]. simpl. intros; lia.
Qed.

Lemma newCourse_id (course : PartialCourse) (n : Z) :
  id (newCourse course n) = n.
Proof. reflexivity. Qed.

Module LocalFacts.
Import Local.

Lemma courseList_saveCourses st : courseList (saveCourses st) = courseList st.
Proof. unfold saveCourses. by destruct (writable st). Qed.

Lemma users_saveCourses st : users (saveCourses st) = users st.
Proof. unfold saveCourses. by destruct (writable st). Qed.

Lemma trace_saveCourses st : trace (saveCourses st) = trace st.
Proof. unfold saveCourses. by destruct (writable st). Qed.

(** One successful creation: the record is appended and carries the
    generated id. *)
Lemma createCourse_Some st arg st' c :
  createCourse st arg = (st', Some c) →
  courseList st' = courseList st ++ [c] ∧
  id c = _generateUniqueCourseId (courseList st).
Proof.
  unfold createCourse. destruct (has_title arg) as [course|]; [|done].
  intros [= <- <-]. by rewrite courseList_saveCourses.
Qed.

Lemma createCourse_titled st arg :
  is_Some (has_title arg) → ∃ st' c, createCourse st arg = (st', Some c).
Proof.
  intros [course H]. unfold createCourse. rewrite H. eauto.
Qed.

Lemma createCourse_step st arg :
  is_Some (has_title arg) →
  ∃ st' c, createCourse st arg = (st', Some c) ∧
    courseList st' = courseList st ++ [c] ∧
    id c = _generateUniqueCourseId (courseList st).
Proof.
  intros H. destruct (createCourse_titled st arg H) as (st' & c & E).
  exists st', c. split; [done|]. by apply createCourse_Some in E.
Qed.

End LocalFacts.

Module RemoteFacts.
Import Remote.

Lemma fetchCourses_courseList st rget :
  courseList (fetchCourses st rget).1
  = match rget with GetOk data => data | _ => courseList st end.
Proof. by destruct rget. Qed.

Lemma refreshed_nonempty st rget :
  courseList st ≠ [] → refreshed st rget = courseList st.
Proof. unfold refreshed. by destruct (courseList st). Qed.

Lemma createCourse_refresh st rget :
  courseList (match courseList st with
              | [] => (fetchCourses st rget).1
              | _ :: _ => st
              end) = refreshed st rget.
Proof.
  unfold refreshed. destruct (courseList st) as [|c cl] eqn:E.
  - rewrite fetchCourses_courseList, E. by destruct rget.
  - by destruct rget.
Qed.

End RemoteFacts.

Lemma generate_rule (cl : list Course) :
  ids_safe cl → next_id_rule cl (_generateUniqueCourseId cl).
Proof.
  intros Hsafe. destruct cl as [|c cl]; [by left|]. right.
  by apply generate_max.
Qed.

Lemma fresh_not_elem (cl : list Course) (n : Z) :
  Forall (λ c, id c < n) cl → n ∉ id <$> cl.
Proof.
  intros H (c & -> & Hc)%list_elem_of_fmap.
  rewrite Forall_forall in H. specialize (H c Hc). lia.
Qed.

Lemma ids_in_range_safe (cl : list Course) (room : nat) :
  ids_in_range cl (S room) → ids_safe cl.
Proof.
  intros [_ H]. eapply Forall_impl; [exact H|]. simpl.
  unfold safe_integer. intros c. lia.
Qed.

Lemma ids_in_range_grow (cl : list Course) (c : Course) (room : nat) :
  ids_in_range cl (S room) →
  id c = _generateUniqueCourseId cl →
  ids_in_range (cl ++ [c]) room.
Proof.
  intros Hr Hid. pose proof (ids_in_range_safe _ _ Hr) as Hsafe.
  destruct Hr as [Hroom Hall]. split; [lia|].
  apply Forall_app. split.
  - eapply Forall_impl; [exact Hall|]. simpl. intros c0. lia.
  - apply Forall_singleton. rewrite Hid.
    destruct cl as [|c0 cl]; [rewrite generate_empty; lia|].
    destruct (generate_max (c0 :: cl)) as (m & [Hm _] & ->); [done..|].
    apply list_elem_of_fmap in Hm as (c1 & -> & Hc1).
    rewrite Forall_forall in Hall. specialize (Hall c1 Hc1). simpl in Hall.
    lia.
Qed.

(** The arithmetic of consecutive creations, whichever variant made
    them. *)
Lemma generated_ids (created : list Course) :
  ∀ cl,
    ids_in_range cl (length created) →
    (∀ k c, created !! k = Some c →
       id c = _generateUniqueCourseId (cl ++ take k created)) →
    ids_assigned_by_rule cl created.
Proof.
  induction created as [|c cs IH]; intros cl Hr Hgen.
  - unfold ids_assigned_by_rule. rewrite app_nil_r.
    split_and!; try done; constructor.
  - simpl in Hr.
    pose proof (ids_in_range_safe _ _ Hr) as Hsafe.
    assert (id c = _generateUniqueCourseId cl) as Hid.
    { specialize (Hgen 0%nat c eq_refl). simpl in Hgen.
      by rewrite app_nil_r in Hgen. }
    pose proof (generate_fresh cl Hsafe) as Hfresh. rewrite <- Hid in Hfresh.
    destruct (IH (cl ++ [c])) as (Hrule & Hsorted & Hgt & Hnd).
    { by apply ids_in_range_grow. }
    { intros k c' Hk. specialize (Hgen (S k) c' Hk). simpl in Hgen.
      by rewrite <- app_assoc. }
    unfold ids_assigned_by_rule. split_and!.
    + intros [|k] c' Hk; simpl in Hk.
      * injection Hk as <-. simpl. rewrite app_nil_r, Hid.
        by apply generate_rule.
      * specialize (Hrule k c' Hk). by rewrite <- app_assoc in Hrule.
    + rewrite fmap_cons. constructor; [done|].
      apply Forall_fmap. eapply Forall_impl; [exact Hgt|].
      simpl. intros c' Hc'. rewrite Forall_app, Forall_singleton in Hc'. tauto.
    + constructor; [done|].
      eapply Forall_impl; [exact Hgt|].
      simpl. intros c' Hc'. rewrite Forall_app in Hc'. tauto.
    + intros Hnodup.
      replace (cl ++ c :: cs) with ((cl ++ [c]) ++ cs)
        by (by rewrite <- app_assoc).
      apply Hnd. rewrite fmap_app. simpl. apply NoDup_app. split_and!.
      * done.
      * intros x Hx Hx'. apply list_elem_of_singleton in Hx' as ->.
        by apply (fresh_not_elem _ _ Hfresh).
      * apply NoDup_singleton.
Qed.

Lemma Local_createCourse_run (st : Local.State)
    (args : list (option PartialCourse)) :
  Forall (λ a, is_Some (has_title a)) args →
  ∃ st' created,
    Local.createCourse_run st args = (st', Some <$> created) ∧
    Local.courseList st' = Local.courseList st ++ created ∧
    ∀ k c, created !! k = Some c →
      id c = _generateUniqueCourseId (Local.courseList st ++ take k created).
Proof.
  intros Hargs. revert st.
  induction Hargs as [|a args Ha _ IH]; intros st.
  - exists st, []. simpl. by rewrite app_nil_r.
  - destruct (LocalFacts.createCourse_step st a Ha) as (st1 & c & E & Hcl & Hid).
    destruct (IH st1) as (st' & created & Erun & Hcl' & Hgen).
    exists st', (c :: created). simpl. rewrite E, Erun.
    rewrite Hcl in Hcl', Hgen. split_and!.
    + done.
    + by rewrite Hcl', <- app_assoc.
    + intros [|k] c' Hk; simpl in Hk.
      * injection Hk as <-. simpl. by rewrite app_nil_r.
      * specialize (Hgen k c' Hk). by rewrite <- app_assoc in Hgen.
Qed.

(** The catalog the first call of a remote run starts from. *)
Lemma Remote_createCourse_step (st : Remote.State) (arg : option PartialCourse)
    (rget : Remote.get_response) :
  is_Some (has_title arg) →
  ∃ st' c,
    Remote.createCourse st arg rget Remote.Ok = (st', Some c) ∧
    Remote.courseList st' = Remote.refreshed st rget ++ [c] ∧
    id c = _generateUniqueCourseId (Remote.refreshed st rget).
Proof.
  intros [course Ht]. unfold Remote.createCourse. rewrite Ht.
  pose proof (RemoteFacts.createCourse_refresh st rget) as Href.
  eexists _, _. split; [done|]. simpl. by rewrite Href.
Qed.

Lemma Remote_createCourse_run (st : Remote.State)
    (calls : list (option PartialCourse * Remote.get_response
                   * Remote.write_response)) :
  Forall (λ call, is_Some (has_title call.1.1) ∧ call.2 = Remote.Ok) calls →
  let base := match calls with
              | [] => Remote.courseList st
              | call :: _ => Remote.refreshed st call.1.2
              end in
  ∃ st' created,
    Remote.createCourse_run st calls = (st', Some <$> created) ∧
    Remote.courseList st' = base ++ created ∧
    ∀ k c, created !! k = Some c →
      id c = _generateUniqueCourseId (base ++ take k created).
Proof.
  intros Hcalls. revert st.
  induction Hcalls as [|[[arg rget] radd] calls [Ha Hok] _ IH]; intros st base.
  - exists st, []. simpl. by rewrite app_nil_r.
  - simpl in Ha, Hok. subst radd base. simpl.
    destruct (Remote_createCourse_step st arg rget Ha)
      as (st1 & c & E & Hcl & Hid).
    destruct (IH st1) as (st' & created & Erun & Hcl' & Hgen).
    assert (match calls with
            | [] => Remote.courseList st1
            | call :: _ => Remote.refreshed st1 call.1.2
            end = Remote.refreshed st rget ++ [c]) as Hbase.
    { destruct calls as [|call calls']; [done|].
      rewrite RemoteFacts.refreshed_nonempty; [done|].
      rewrite Hcl. by destruct (Remote.refreshed st rget). }
    rewrite Hbase in Hcl', Hgen.
    exists st', (c :: created). rewrite E, Erun. split_and!.
    + done.
    + by rewrite Hcl', <- app_assoc.
    + intros [|k] c' Hk; simpl in Hk.
      * injection Hk as <-. simpl. by rewrite app_nil_r.
      * specialize (Hgen k c' Hk). by rewrite <- app_assoc in Hgen.
Qed.

(** C1, as amended: along every run of [createCourse] calls that all
    succeed (arguments with a title; in the remote-backed variant every write
    acknowledged), on a catalog whose ids are safe integers with room for as
    many successors as there are calls, every call appends its record; each
    new id follows the rule (maximum existing id plus one, or 1 on an empty
    catalog) applied to the catalog as it is at that call, which in the
    remote-backed variant is the catalog as refreshed by the first call;
    the ids assigned are strictly increasing, each is larger than every id
    already in the catalog, and ids that were unique stay unique.  Nothing
    is promised about the ids of courses deleted earlier. *)
Theorem createCourse_ids :
  (∀ st args,
     Forall (λ a, is_Some (has_title a)) args →
     ids_in_range (Local.courseList st) (length args) →
     ∃ st' created,
       Local.createCourse_run st args = (st', Some <$> created) ∧
       Local.courseList st' = Local.courseList st ++ created ∧
       ids_assigned_by_rule (Local.courseList st) created) ∧
  (∀ st calls,
     Forall (λ call, is_Some (has_title call.1.1) ∧ call.2 = Remote.Ok)
       calls →
     let base := match calls with
                 | [] => Remote.courseList st
                 | call :: _ => Remote.refreshed st call.1.2
                 end in
     ids_in_range base (length calls) →
     ∃ st' created,
       Remote.createCourse_run st calls = (st', Some <$> created) ∧
       Remote.courseList st' = base ++ created ∧
       ids_assigned_by_rule base created).
Proof.
  split.
  - intros st args Hargs Hr.
    destruct (Local_createCourse_run st args Hargs)
      as (st' & created & Erun & Hcl & Hgen).
    exists st', created. split_and!; [done..|].
    apply generated_ids; [|done].
    assert (length created = length args) as ->; [|done].
    apply (f_equal snd) in Erun. simpl in Erun.
    apply (f_equal length) in Erun. rewrite length_fmap in Erun.
    rewrite <- Erun. clear. revert st.
    induction args as [|a args IH]; intros st; simpl; [done|].
    destruct (Local.createCourse st a) as [st1 r].
    specialize (IH st1).
    destruct (Local.createCourse_run st1 args) as [st2 rs]. simpl in *.
    by rewrite IH.
  - intros st calls Hcalls base Hr.
    destruct (Remote_createCourse_run st calls Hcalls)
      as (st' & created & Erun & Hcl & Hgen).
    exists st', created. split_and!; [done..|].
    apply generated_ids; [|done].
    assert (length created = length calls) as ->; [|done].
    apply (f_equal snd) in Erun. simpl in Erun.
    apply (f_equal length) in Erun. rewrite length_fmap in Erun.
    rewrite <- Erun. clear. revert st.
    induction calls as [|[[arg rget] radd] calls IH]; intros st; simpl; [done|].
    destruct (Remote.createCourse st arg rget radd) as [st1 r].
    specialize (IH st1).
    destruct (Remote.createCourse_run st1 calls) as [st2 rs]. simpl in *.
    by rewrite IH.
Qed.

Lemma createCourse_ids_witness :
  let st := Local.init Local.NoItem true [] in
  let args := [Some (titled "Algebra"); Some (titled "Botany")] in
  let rst := Remote.init [] in
  let calls := [ (Some (titled "Algebra"), Remote.GetOk Local.seed, Remote.Ok);
                 (Some (titled "Botany"), Remote.GetNotOk, Remote.Ok) ] in
  (Forall (λ a, is_Some (has_title a)) args ∧
   ids_in_range (Local.courseList st) (length args) ∧
   ∃ st' created,
     Local.createCourse_run st args = (st', Some <$> created) ∧
     Local.courseList st' = Local.courseList st ++ created ∧
     ids_assigned_by_rule (Local.courseList st) created) ∧
  (Forall (λ call, is_Some (has_title call.1.1) ∧ call.2 = Remote.Ok) calls ∧
   ids_in_range Local.seed (length calls) ∧
   ∃ st' created,
     Remote.createCourse_run rst calls = (st', Some <$> created) ∧
     Remote.courseList st' = Local.seed ++ created ∧
     ids_assigned_by_rule Local.seed created).
Proof.
  assert (Forall (λ a, is_Some (has_title a))
            [Some (titled "Algebra"); Some (titled "Botany")]) as Hargs
    by (repeat constructor; vm_compute; eauto).
  assert (ids_in_range (Local.courseList (Local.init Local.NoItem true []))
            (length [Some (titled "Algebra"); Some (titled "Botany")])) as Hr
    by (split; [vm_compute; discriminate | constructor]).
  assert (Forall (λ call : option PartialCourse * Remote.get_response
                           * Remote.write_response,
                    is_Some (has_title call.1.1) ∧ call.2 = Remote.Ok)
            [ (Some (titled "Algebra"), Remote.GetOk Local.seed, Remote.Ok);
              (Some (titled "Botany"), Remote.GetNotOk, Remote.Ok) ]) as Hcalls
    by (repeat constructor; vm_compute; eauto).
  assert (ids_in_range Local.seed 2) as Hrr
    by (split; [vm_compute; discriminate|];
        repeat constructor; vm_compute; (reflexivity || discriminate)).
  destruct createCourse_ids as [Hlocal Hremote].
  split.
  - split; [exact Hargs|]. split; [exact Hr|].
    exact (Hlocal _ _ Hargs Hr).
  - split; [exact Hcalls|]. split; [exact Hrr|].
    exact (Hremote (Remote.init []) _ Hcalls Hrr).
Defined.

(** The id of a deleted course is assigned again: on the catalog with ids
    1 and 2, a creation gets id 3; after course 3 is deleted, the next
    creation gets id 3 as well. *)
Lemma createCourse_reuses_deleted_id :
  let st0 := Local.init (Local.Catalog Local.seed) true [] in
  let '(st1, c1) := Local.createCourse st0 (Some (titled "Algebra")) in
  let '(st2, deleted) := Local.deleteCourse st1 (KNum 3) in
  let '(st3, c2) := Local.createCourse st2 (Some (titled "Botany")) in
  id <$> c1 = Some 3 ∧ deleted = true ∧ id <$> c2 = Some 3 ∧
  id <$> Local.courseList st2 = [1; 2].
Proof. vm_compute. done. Qed.

(** Beyond the safe integers the rule breaks down: next to a course whose
    id is 2^53 the sum rounds back and the new course gets the same id. *)
Lemma createCourse_repeats_id_at_2_53 :
  let st := Local.init (Local.Catalog [sample_course (2 ^ 53) "A" 0 0]) true [] in
  id <$> (Local.createCourse st (Some (titled "Botany"))).2 = Some (2 ^ 53).
Proof. vm_compute. reflexivity. Qed.

(** ** Category union *)

Lemma Set_add_fold (l s : list string) :
  foldl Set_add s l = s ++ filter (λ y, y ∉ s) (first_seen l).
Proof.
  revert s. induction l as [|x l IH]; intros s; simpl.
  - by rewrite app_nil_r.
  - rewrite IH. unfold Set_add. destruct (decide (x ∈ s)) as [Hx|Hx].
    + rewrite filter_cons_False by (intros Hn; by apply Hn).
      f_equal. rewrite list_filter_filter. apply list_filter_iff.
      intros y. split; [|by intros [Hy _]]. intros Hy. split; [done|]. congruence.
    + rewrite filter_cons_True by done.
      rewrite <- app_assoc. simpl. do 2 f_equal.
      rewrite list_filter_filter. apply list_filter_iff.
      intros y. rewrite not_elem_of_app, list_elem_of_singleton. done.
Qed.

(** The [Set] built by the code is the first-seen union of the
    specification. *)
Lemma new_Set_first_seen (l : list string) : new_Set l = first_seen l.
Proof.
  unfold new_Set. rewrite Set_add_fold. simpl.
  induction (first_seen l) as [|x k IH]; [done|].
  rewrite filter_cons_True by apply not_elem_of_nil. by rewrite IH.
Qed.

Lemma first_seen_elem (l : list string) (x : string) :
  x ∈ first_seen l ↔ x ∈ l.
Proof.
  induction l as [|y l IH]; simpl; [done|].
  rewrite !elem_of_cons, list_elem_of_filter, IH.
  destruct (decide (x = y)); tauto.
Qed.

Lemma first_seen_NoDup (l : list string) : NoDup (first_seen l).
Proof.
  induction l as [|y l IH]; simpl; [constructor|].
  apply NoDup_cons. split.
  - rewrite list_elem_of_filter. tauto.
  - by apply NoDup_filter.
Qed.

Lemma first_seen_app (l k : list string) :
  first_seen (l ++ k) = first_seen l ++ filter (λ y, y ∉ l) (first_seen k).
Proof.
  induction l as [|x l IH]; simpl.
  - symmetry. induction (first_seen k) as [|z k' IHk]; [done|].
    rewrite filter_cons_True by apply not_elem_of_nil. by rewrite IHk.
  - f_equal. rewrite IH, filter_app. f_equal.
    rewrite list_filter_filter. apply list_filter_iff.
    intros y. rewrite not_elem_of_cons. tauto.
Qed.

Lemma first_seen_id (l : list string) : NoDup l → first_seen l = l.
Proof.
  induction 1 as [|x l Hx _ IH]; simpl; [done|].
  rewrite IH. f_equal.
  clear IH. induction l as [|z l IHl]; [done|].
  apply not_elem_of_cons in Hx as [Hz Hx].
  rewrite filter_cons_True by congruence. f_equal. by apply IHl.
Qed.

Lemma edit_found (cl : list Course) (cid : key) (data : PartialCourse)
    (idx : nat) (c : Course) (v : jsval) (old : list string) :
  list_find (λ c, KNum (id c) = cid) cl = Some (idx, c) →
  iterate (oldCategories (categories c)) = Normal old →
  p_categories data = Some v →
  truthy v = true →
  let c' := merge c (with_categories data
                       (Some (JArr (first_seen (old ++ as_array v))))) in
  edit cl cid data = Normal (Some (<[idx := c']> cl, c')).
Proof.
  intros Hfind Hold Hv Htruthy. unfold edit, union_categories.
  rewrite Hfind, Hv. simpl. rewrite Htruthy, Hold. simpl.
  by rewrite new_Set_first_seen.
Qed.

Lemma oldCategories_array (l : list string) :
  iterate (oldCategories (JArr l)) = Normal l.
Proof. reflexivity. Qed.

Lemma oldCategories_falsy (v : jsval) :
  truthy v = false → iterate (oldCategories v) = Normal [].
Proof. unfold oldCategories. by intros ->. Qed.

(** A course whose categories are a truthy value that cannot be spread
    makes the union throw. *)
Lemma edit_throws_on_number :
  let st := Local.init Local.NoItem true [] in
  let st1 := (Local.createCourse st
                (Some (with_categories (titled "Algebra") (Some (JNum 5))))).1 in
  Local.editCourse st1 (KNum 1) (categories_patch (JArr ["x"])) = (st1, Throw).
Proof. vm_compute. reflexivity. Qed.

(** C2, as amended: when the course exists and its categories spread to
    the list [old] (they are an array, or falsy and then [old] is empty), a
    patch whose [categories] is truthy sets the course's categories to the
    union of the old ones and the new ones in first-seen order, without
    duplicates; a truthy value that is not an array counts as the empty
    list, so the result is the old list with its own duplicates dropped,
    that is the old list itself when it had none.  Both variants agree. *)
Theorem editCourse_categories (cl : list Course) (cid : key)
    (data : PartialCourse) (idx : nat) (c : Course) (v : jsval)
    (old : list string) :
  list_find (λ c, KNum (id c) = cid) cl = Some (idx, c) →
  iterate (oldCategories (categories c)) = Normal old →
  p_categories data = Some v →
  truthy v = true →
  let result := first_seen (old ++ as_array v) in
  let c' := merge c (with_categories data (Some (JArr result))) in
  (∀ st, Local.courseList st = cl →
     ∃ st', Local.editCourse st cid data = (st', Normal (Some c')) ∧
            Local.courseList st' = <[idx := c']> cl) ∧
  (∀ st, Remote.courseList st = cl →
     ∃ st', Remote.editCourse st cid data = (st', Normal (Some c')) ∧
            Remote.courseList st' = <[idx := c']> cl) ∧
  categories c' = JArr result ∧
  NoDup result ∧
  (∀ x, x ∈ result ↔ x ∈ old ∨ x ∈ as_array v) ∧
  result = first_seen old ++ filter (λ y, y ∉ old) (first_seen (as_array v)) ∧
  (NoDup old →
     result = old ++ filter (λ y, y ∉ old) (first_seen (as_array v))) ∧
  (isArray v = false → result = first_seen old ∧ (NoDup old → result = old)).
Proof.
  intros Hfind Hold Hv Htruthy result c'.
  pose proof (edit_found cl cid data idx c v old Hfind Hold Hv Htruthy) as E.
  fold result in E. fold c' in E.
  split_and!.
  - intros st <-. unfold Local.editCourse. rewrite E.
    eexists. split; [done|]. by rewrite LocalFacts.courseList_saveCourses.
  - intros st <-. unfold Remote.editCourse. rewrite E.
    eexists. split; done.
  - done.
  - apply first_seen_NoDup.
  - intros x. unfold result. by rewrite first_seen_elem, elem_of_app.
  - apply first_seen_app.
  - intros Hnd. unfold result. by rewrite first_seen_app, (first_seen_id old).
  - intros Hna.
    assert (as_array v = []) as Hnil by (by destruct v).
    unfold result. rewrite Hnil, app_nil_r.
    split; [done|]. apply first_seen_id.
Qed.

Lemma editCourse_categories_witness :
  let cl := Local.seed in
  let c := Local.multimedia_basics in
  let v := JArr ["basics"; "video"; "video"] in
  let data := categories_patch v in
  list_find (λ c, KNum (id c) = KNum 1) cl = Some (0%nat, c) ∧
  iterate (oldCategories (categories c)) = Normal ["multimedia"; "basics"] ∧
  p_categories data = Some v ∧
  truthy v = true ∧
  ∃ c', (∀ st, Local.courseList st = cl →
           ∃ st', Local.editCourse st (KNum 1) data = (st', Normal (Some c')) ∧
                  Local.courseList st' = <[0%nat := c']> cl) ∧
        categories c' = JArr ["multimedia"; "basics"; "video"].
Proof.
  assert (list_find (λ c, KNum (id c) = KNum 1) Local.seed
          = Some (0%nat, Local.multimedia_basics)) as Hfind
    by (vm_compute; reflexivity).
  split; [exact Hfind|].
  split; [reflexivity|]. split; [reflexivity|]. split; [reflexivity|].
  pose proof (editCourse_categories Local.seed (KNum 1)
                (categories_patch (JArr ["basics"; "video"; "video"]))
                0%nat Local.multimedia_basics
                (JArr ["basics"; "video"; "video"])
                ["multimedia"; "basics"]
                Hfind eq_refl eq_refl eq_refl) as (Hlocal & _ & Hcat & _).
  eexists. split; [exact Hlocal|]. vm_compute. reflexivity.
Defined.

(** A non-array [categories] in the patch does not always leave the
    course's categories as they were: [null] replaces them, and a truthy
    non-array value drops the duplicates the old list had. *)
Lemma editCourse_categories_changed :
  (let st := Local.init (Local.Catalog Local.seed) true [] in
   let '(st', r) := Local.editCourse st (KNum 1) (categories_patch JNull) in
   categories <$> getCourse (Local.courseList st) (KNum 1)
     = Some (JArr ["multimedia"; "basics"]) ∧
   categories <$> getCourse (Local.courseList st') (KNum 1) = Some JNull) ∧
  (let st := Local.init Local.NoItem true [] in
   let '(st1, _) :=
     Local.createCourse st
       (Some (with_categories (titled "Algebra") (Some (JArr ["a"; "a"])))) in
   let '(st2, r) := Local.editCourse st1 (KNum 1) (categories_patch (JStr "x")) in
   categories <$> getCourse (Local.courseList st1) (KNum 1)
     = Some (JArr ["a"; "a"]) ∧
   categories <$> getCourse (Local.courseList st2) (KNum 1)
     = Some (JArr ["a"])).
Proof. vm_compute. done. Qed.

(** ** Creation against the backend *)


(** C3, as amended: when the argument has a title and the backend write
    fails (non-success response or network error), [createCourse] returns
    [null] and the new record is not added to the local catalog: a catalog
    that was not empty is left unchanged, and an empty one holds whatever the
    refresh made before the id generation fetched.  When the write is
    acknowledged the record is appended to that catalog and returned. *)
Theorem createCourse_backend (st : Remote.State) (arg : option PartialCourse)
    (course : PartialCourse) (rget : Remote.get_response)
    (radd : Remote.write_response) :
  has_title arg = Some course →
  let before := Remote.refreshed st rget in
  let c := newCourse course (_generateUniqueCourseId before) in
  let st' := (Remote.createCourse st arg rget radd).1 in
  let result := (Remote.createCourse st arg rget radd).2 in
  (radd ≠ Remote.Ok →
     result = None ∧ Remote.courseList st' = before ∧
     (Remote.courseList st ≠ [] → Remote.courseList st' = Remote.courseList st)) ∧
  (radd = Remote.Ok →
     result = Some c ∧ Remote.courseList st' = before ++ [c]) ∧
  (c ∈ Remote.courseList st' → radd = Remote.Ok ∨ c ∈ before).
Proof.
  intros Htitle before c st' result.
  pose proof (RemoteFacts.createCourse_refresh st rget) as Href.
  subst st' result. unfold Remote.createCourse. rewrite Htitle.
  fold before in Href.
  destruct radd; simpl; rewrite Href; fold c.
  - split_and!; [|done|by right]. intros _. split_and!; [done..|].
    intros Hne. by apply RemoteFacts.refreshed_nonempty.
  - split_and!; [|done|by right]. intros _. split_and!; [done..|].
    intros Hne. by apply RemoteFacts.refreshed_nonempty.
  - split_and!; [done|done|by left].
Qed.

Lemma createCourse_backend_witness :
  let st := Remote.set_courseList (Remote.init []) Local.seed in
  let arg := Some (titled "Algebra") in
  has_title arg = Some (titled "Algebra") ∧
  (Remote.createCourse st arg Remote.GetNotOk Remote.NotOk).2 = None ∧
  Remote.courseList (Remote.createCourse st arg Remote.GetNotOk Remote.NotOk).1
  = Local.seed.
Proof.
  split; [reflexivity|].
  pose proof (createCourse_backend
                (Remote.set_courseList (Remote.init []) Local.seed)
                (Some (titled "Algebra")) (titled "Algebra")
                Remote.GetNotOk Remote.NotOk eq_refl) as (Hfail & _ & _).
  destruct Hfail as (Hnull & Hcl & _); [discriminate|].
  split; [exact Hnull | exact Hcl].
Defined.

(** A failed creation on an empty catalog changes the catalog: the refresh
    made for the id generation has loaded it. *)
Lemma createCourse_failure_loads_catalog :
  let st := Remote.init [] in
  let '(st', r) :=
    Remote.createCourse st (Some (titled "Algebra"))
      (Remote.GetOk Local.seed) Remote.NotOk in
  r = None ∧ Remote.courseList st = [] ∧ Remote.courseList st' = Local.seed.
Proof. vm_compute. done. Qed.

(** ** Deletion and its cascade *)

Lemma findCourseIndex_Some (cl : list Course) (cid : key) (idx : nat) :
  _findCourseIndex cl cid = Some idx ↔
  ∃ c, list_find (λ c, KNum (id c) = cid) cl = Some (idx, c).
Proof.
  unfold _findCourseIndex.
  destruct (list_find _ cl) as [[i c]|]; simpl; split.
  - intros [= ->]. eauto.
  - by intros (c' & [= -> _]).
  - done.
  - by intros (c' & ?).
Qed.

Lemma findCourseIndex_getCourse (cl : list Course) (cid : key) :
  _findCourseIndex cl cid = None ↔ getCourse cl cid = None.
Proof.
  unfold _findCourseIndex, getCourse.
  by destruct (list_find _ cl) as [[i c]|].
Qed.

(** With unique ids, removing the record found for an id leaves no record
    with that id. *)
Lemma delete_found_absent (cl : list Course) (cid : key) (idx : nat) :
  _findCourseIndex cl cid = Some idx →
  NoDup (id <$> cl) →
  getCourse (delete idx cl) cid = None.
Proof.
  intros (c & (Hl & Hp & _)%list_find_Some)%findCourseIndex_Some Hnd.
  apply findCourseIndex_getCourse. unfold _findCourseIndex.
  apply fmap_None, list_find_None.
  rewrite delete_take_drop.
  rewrite <- (take_drop_middle cl idx c Hl), fmap_app, fmap_cons in Hnd.
  apply NoDup_app in Hnd as (_ & Hdisj & [Hc _]%NoDup_cons).
  subst cid. apply Forall_app. split; apply Forall_forall; intros x Hx [= E].
  - apply (Hdisj (id x)); [by apply list_elem_of_fmap_2|].
    rewrite E. apply list_elem_of_here.
  - apply Hc. rewrite <- E. by apply list_elem_of_fmap_2.
Qed.

Lemma cascade_prefix (courseId : key) (dir rest : list User) (tr : list Event) :
  foldl (λ acc iu,
           let remaining := remainingCourses courseId iu.2 in
           (updateUser acc.1 iu.1 remaining,
            acc.2 ++ [UpdateUser iu.1 remaining]))
        (dir ++ rest, tr)
        (filter (λ iu, role iu.2 = "student") (imap pair dir))
  = ((unenrolled courseId <$> dir) ++ rest,
     tr ++ update_calls courseId dir).
Proof.
  unfold update_calls. revert rest.
  induction dir as [|u dir IH] using rev_ind; intros rest.
  - simpl. by rewrite app_nil_r.
  - rewrite imap_app, filter_app, foldl_app, <- app_assoc, IH.
    cbn [imap]. rewrite Nat.add_0_r, fmap_app, fmap_app.
    rewrite filter_cons, filter_nil. cbn [snd fst].
    destruct (decide (role u = "student")) as [Hs|Hs];
      cbn [foldl fmap list_fmap snd fst].
    + assert (unenrolled courseId u
              = {| userName := userName u; role := role u;
                   enrolledCourses := remainingCourses courseId u |}) as ->
        by (unfold unenrolled; by rewrite decide_True).
      unfold updateUser.
      replace (length dir) with (length (unenrolled courseId <$> dir) + 0)%nat
        at 1 by (rewrite length_fmap; lia).
      rewrite alter_app_r. cbn [alter list_alter].
      by rewrite <- !app_assoc.
    + assert (unenrolled courseId u = u) as ->
        by (unfold unenrolled; by rewrite decide_False).
      by rewrite app_nil_r, <- !app_assoc.
Qed.

(** The cascade as a whole: one cleanup call, then one update per student,
    leaving the directory with every student unenrolled. *)
Lemma cascade_spec (courseId : key) (dir : list User) (tr : list Event) :
  cascade courseId dir tr
  = (unenrolled courseId <$> dir,
     tr ++ CleanupCourseData courseId :: update_calls courseId dir).
Proof.
  unfold cascade.
  pose proof (cascade_prefix courseId dir [] (tr ++ [CleanupCourseData courseId]))
    as H.
  rewrite !app_nil_r in H. cbv zeta in H |- *. rewrite H.
  by rewrite <- app_assoc.
Qed.

Lemma remainingCourses_elem (courseId : key) (u : User) (e : key) :
  e ∈ remainingCourses courseId u ↔
  e ∈ enrolledCourses u ∧ js_String e ≠ js_String courseId.
Proof. unfold remainingCourses. rewrite list_elem_of_filter. tauto. Qed.

Lemma unenrolled_student (courseId : key) (dir : list User) (u : User) :
  u ∈ unenrolled courseId <$> dir →
  role u = "student" →
  Forall (λ e, js_String e ≠ js_String courseId) (enrolledCourses u).
Proof.
  intros (u0 & -> & _)%list_elem_of_fmap. unfold unenrolled.
  destruct (decide (role u0 = "student")) as [Hs|Hs]; simpl; [|done].
  intros _. apply Forall_forall. intros e He.
  by apply remainingCourses_elem in He as [_ He].
Qed.

Lemma Local_deleteCourse_false (st st1 : Local.State) (cid : key) :
  Local.deleteCourse st cid = (st1, false) → st1 = st.
Proof.
  unfold Local.deleteCourse.
  destruct (_findCourseIndex _ cid); [done|]. by intros [= <-].
Qed.

Lemma Local_deleteCourse_true (st st1 : Local.State) (cid : key) :
  Local.deleteCourse st cid = (st1, true) →
  ∃ idx, _findCourseIndex (Local.courseList st) cid = Some idx ∧
         Local.courseList st1 = delete idx (Local.courseList st) ∧
         Local.users st1 = Local.users st ∧
         Local.trace st1 = Local.trace st.
Proof.
  unfold Local.deleteCourse.
  destruct (_findCourseIndex _ cid) as [idx|]; [|done].
  intros [= <-]. exists idx.
  by rewrite LocalFacts.courseList_saveCourses, LocalFacts.users_saveCourses,
       LocalFacts.trace_saveCourses.
Qed.

Lemma Remote_deleteCourse_false (st st1 : Remote.State) (cid : key)
    (rdel : Remote.write_response) :
  Remote.deleteCourse st cid rdel = (st1, false) →
  Remote.courseList st1 = Remote.courseList st ∧
  Remote.users st1 = Remote.users st ∧
  (Remote.trace st1 = Remote.trace st ∨
   Remote.trace st1 = Remote.trace st ++ [FetchDelete cid]).
Proof.
  unfold Remote.deleteCourse.
  destruct (_findCourseIndex _ cid) as [idx|].
  - destruct rdel; [| |done]; intros [= <-]; simpl; auto.
  - intros [= <-]. auto.
Qed.

Lemma Remote_deleteCourse_true (st st1 : Remote.State) (cid : key)
    (rdel : Remote.write_response) :
  Remote.deleteCourse st cid rdel = (st1, true) →
  rdel = Remote.Ok ∧
  ∃ idx, _findCourseIndex (Remote.courseList st) cid = Some idx ∧
         Remote.courseList st1 = delete idx (Remote.courseList st) ∧
         Remote.users st1 = Remote.users st ∧
         Remote.trace st1 = Remote.trace st ++ [FetchDelete cid].
Proof.
  unfold Remote.deleteCourse.
  destruct (_findCourseIndex _ cid) as [idx|]; [|done].
  destruct rdel; [done..|]. intros [= <-]. split; [done|]. by exists idx.
Qed.

Lemma unenrolled_no_reference (courseId : key) (dir : list User) (u : User) :
  u ∈ unenrolled courseId <$> dir →
  role u = "student" →
  courseId ∉ enrolledCourses u.
Proof.
  intros Hu Hs Hin.
  pose proof (unenrolled_student courseId dir u Hu Hs) as Hall.
  rewrite Forall_forall in Hall. by apply (Hall courseId Hin).
Qed.

Lemma js_String_KNum_inj (n m : Z) :
  js_String (KNum n) = js_String (KNum m) → n = m.
Proof.
  simpl. intros E. apply DecimalZ.to_int_inj.
  assert (∀ z, NilZero.int_of_string (NilZero.string_of_int (Z.to_int z))
               = Some (Z.to_int z)) as Hisi.
  { intros z. apply NilZero.isi; destruct z; simpl; try discriminate;
      intros [= H]; by apply Unsigned.to_uint_nonnil in H. }
  pose proof (Hisi n) as Hn. rewrite E, Hisi in Hn. by injection Hn.
Qed.

Lemma unenrolled_string_matched (courseId : key) (dir : list User) :
  string_matched_removal courseId dir (unenrolled courseId <$> dir).
Proof.
  split; [apply length_fmap|].
  intros i u Hi. exists (unenrolled courseId u).
  rewrite list_lookup_fmap, Hi. split; [done|]. unfold unenrolled.
  destruct (decide (role u = "student")) as [Hs|Hs]; simpl;
    split_and!; try done.
  intros _. split; [done|].
  intros e He. rewrite remainingCourses_elem. split.
  - intros Hn. destruct (decide (js_String e = js_String courseId)); [done|].
    by destruct Hn.
  - intros Heq [_ Hne]. by apply Hne.
Qed.

Lemma role_unenrolled (courseId : key) (u : User) :
  role (unenrolled courseId u) = role u.
Proof. unfold unenrolled. by destruct (decide (role u = "student")). Qed.

Lemma update_calls_from (courseId : key) (dir : list User) :
  ∀ place : nat → nat,
    (λ iu, UpdateUser iu.1 (remainingCourses courseId iu.2))
      <$> filter (λ iu : nat * User, role iu.2 = "student")
                 (imap (λ i u, (place i, u)) dir)
    = (λ iu, UpdateUser iu.1 (enrolledCourses iu.2))
        <$> filter (λ iu : nat * User, role iu.2 = "student")
                   (imap (λ i u, (place i, u)) (unenrolled courseId <$> dir)).
Proof.
  induction dir as [|u dir IH]; intros place; [done|].
  cbn [imap fmap list_fmap]. rewrite !filter_cons. cbn [snd].
  rewrite role_unenrolled.
  pose proof (IH (place ∘ S)) as IH'.
  destruct (decide (role u = "student")) as [Hs|Hs].
  - cbn [fmap list_fmap fst snd]. f_equal; [|exact IH'].
    unfold unenrolled. by rewrite decide_True.
  - exact IH'.
Qed.

(** The calls the cascade makes are those that leave the directory it
    leaves. *)
Lemma update_calls_unenrolled (courseId : key) (dir : list User) :
  update_calls courseId dir = update_calls_of (unenrolled courseId <$> dir).
Proof. apply (update_calls_from courseId dir (λ i, i)). Qed.

Lemma getCourse_None (cl : list Course) (cid : key) :
  getCourse cl cid = None ↔ ∀ c, c ∈ cl → KNum (id c) ≠ cid.
Proof.
  unfold getCourse.
  destruct (list_find _ cl) as [[i c]|] eqn:Hf; simpl.
  - split; [done|]. intros H.
    apply list_find_Some in Hf as (Hl & Hp & _).
    destruct (H c); [by eapply list_elem_of_lookup_2 | done].
  - split; [|done]. intros _ c Hc.
    apply list_find_None in Hf. rewrite Forall_forall in Hf. by apply Hf.
Qed.

Lemma cascaded_intro (courseId : key) (cl : list Course) (idx : nat)
    (dir : list User) (tr : list Event) :
  _findCourseIndex cl courseId = Some idx →
  cascaded courseId cl dir tr
    (delete idx cl) (unenrolled courseId <$> dir)
    (tr ++ CleanupCourseData courseId :: update_calls courseId dir).
Proof.
  intros Hidx. unfold cascaded. split_and!.
  - exists idx. split; [|apply delete_take_drop].
    apply findCourseIndex_Some in Hidx as (c & Hf).
    apply list_find_Some in Hf as (Hl & Hp & Hleast).
    split; [by exists c|]. intros j c0 Hj Hlt. by eapply Hleast.
  - by rewrite update_calls_unenrolled.
  - apply unenrolled_string_matched.
  - intros u. apply unenrolled_no_reference.
  - intros Hnd. apply getCourse_None. by apply delete_found_absent.
Qed.

(** C4: [courseDeletion] first calls [deleteCourse]; when that fails it
    returns [false] with no cleanup call and no user touched; when it
    succeeds, with the id and the entries of the enrolled-courses lists
    strings or safe integers, it has removed the first course whose id
    strictly equals the id, it calls [cleanupCourseData], then updates every
    user whose role is ["student"], in directory order, with that user's
    list less the entries whose string form is the id's, and returns
    [true]: no student's enrolled-courses list contains the id, and when no
    two courses of the catalog shared an id no course with the id is left
    in [listCourses()].  Both variants. *)
Theorem courseDeletion_cascade (courseId : key) :
  (∀ st st1, Local.deleteCourse st courseId = (st1, false) →
     Local.courseDeletion st courseId = (st, false)) ∧
  (∀ st st1,
     safe_key courseId → keys_safe (Local.users st) →
     Local.deleteCourse st courseId = (st1, true) →
     ∃ st',
       Local.courseDeletion st courseId = (st', true) ∧
       cascaded courseId (Local.courseList st)
         (Local.users st) (Local.trace st)
         (Local.listCourses st') (Local.users st') (Local.trace st')) ∧
  (∀ st st1 rdel, Remote.deleteCourse st courseId rdel = (st1, false) →
     Remote.courseDeletion st courseId rdel = (st1, false) ∧
     Remote.courseList st1 = Remote.courseList st ∧
     Remote.users st1 = Remote.users st ∧
     (Remote.trace st1 = Remote.trace st ∨
      Remote.trace st1 = Remote.trace st ++ [FetchDelete courseId])) ∧
  (∀ st st1 rdel,
     safe_key courseId → keys_safe (Remote.users st) →
     Remote.deleteCourse st courseId rdel = (st1, true) →
     ∃ st',
       Remote.courseDeletion st courseId rdel = (st', true) ∧
       cascaded courseId (Remote.courseList st)
         (Remote.users st) (Remote.trace st ++ [FetchDelete courseId])
         (Remote.courseList st') (Remote.users st') (Remote.trace st')).
Proof.
  split_and!.
  - intros st st1 E. unfold Local.courseDeletion. rewrite E.
    by apply Local_deleteCourse_false in E as ->.
  - intros st st1 _ _ E. unfold Local.courseDeletion. rewrite E.
    apply Local_deleteCourse_true in E as (idx & Hidx & Hcl & Hus & Htr).
    rewrite cascade_spec. eexists. split; [done|].
    unfold Local.listCourses. simpl. rewrite Hcl, Hus, Htr.
    by apply cascaded_intro.
  - intros st st1 rdel E. unfold Remote.courseDeletion. rewrite E.
    split; [done|]. by apply Remote_deleteCourse_false in E.
  - intros st st1 rdel _ _ E. unfold Remote.courseDeletion. rewrite E.
    apply Remote_deleteCourse_true in E as (_ & idx & Hidx & Hcl & Hus & Htr).
    rewrite cascade_spec. eexists. split; [done|].
    simpl. rewrite Hcl, Hus, Htr. by apply cascaded_intro.
Qed.

Lemma courseDeletion_cascade_witness :
  let st := Local.init (Local.Catalog Local.seed) true sample_users in
  let st1 := (Local.deleteCourse st (KNum 1)).1 in
  safe_key (KNum 1) ∧ keys_safe (Local.users st) ∧
  Local.deleteCourse st (KNum 1) = (st1, true) ∧
  ∃ st',
    Local.courseDeletion st (KNum 1) = (st', true) ∧
    cascaded (KNum 1) (Local.courseList st)
      (Local.users st) (Local.trace st)
      (Local.listCourses st') (Local.users st') (Local.trace st').
Proof.
  assert (safe_key (KNum 1)) as Hk by (unfold safe_key, safe_integer; lia).
  assert (keys_safe
            (Local.users
               (Local.init (Local.Catalog Local.seed) true sample_users)))
    as Hd
    by (repeat (apply Forall_cons_2 || apply Forall_nil_2);
        unfold safe_key, safe_integer; (exact I || lia)).
  assert (Local.deleteCourse
            (Local.init (Local.Catalog Local.seed) true sample_users) (KNum 1)
          = ((Local.deleteCourse
                (Local.init (Local.Catalog Local.seed) true sample_users)
                (KNum 1)).1, true)) as E by (vm_compute; reflexivity).
  split; [exact Hk|]. split; [exact Hd|]. split; [exact E|].
  destruct (courseDeletion_cascade (KNum 1)) as (_ & Hok & _).
  exact (Hok _ _ Hk Hd E).
Defined.

(** The same deletion in full: the catalog, the lists and the calls after
    course 1 is deleted from the seed catalog with the sample directory. *)
Lemma courseDeletion_cascade_example :
  let st := Local.init (Local.Catalog Local.seed) true sample_users in
  let r := Local.courseDeletion st (KNum 1) in
  r.2 = true ∧
  Local.listCourses r.1 = [Local.graphic_design] ∧
  enrolledCourses <$> Local.users r.1
  = [[KStr "2"; KNum 12]; [KNum 1]; [KNum 2]] ∧
  Local.trace r.1
  = [CleanupCourseData (KNum 1);
     UpdateUser 0 [KStr "2"; KNum 12]; UpdateUser 2 [KNum 2]].
Proof. vm_compute. done. Qed.

(** Unique ids are needed for the course to be gone: [editCourse] can give
    course 1 the id 2; [courseDeletion(2)] then removes that record,
    returns [true], and [getCourse(2)] still finds a course. *)
Lemma courseDeletion_leaves_duplicate :
  let st0 := Local.init (Local.Catalog Local.seed) true sample_users in
  let data := {| p_id := Some 2; p_title := None; p_description := None;
                 p_instructor := None; p_students := None;
                 p_categories := None; p_visits := None; p_price := None;
                 p_duration := None |} in
  let st := (Local.editCourse st0 (KNum 1) data).1 in
  let r := Local.courseDeletion st (KNum 2) in
  r.2 = true ∧
  Local.listCourses r.1 = [Local.graphic_design] ∧
  getCourse (Local.listCourses r.1) (KNum 2) = Some Local.graphic_design.
Proof. vm_compute. done. Qed.

(** ** References removed by string form *)

(** C9: in the user step of a successful [courseDeletion], with the id
    and the entries of the enrolled-courses lists strings or safe integers,
    an entry of a student's enrolled-courses list is removed exactly when
    its string form equals the string form of the course id; users that are
    not students are untouched.  So after course 5 is deleted neither the
    number 5 nor the string "5" is left, while a reference to any other
    course, stored as a number or as its decimal string, is kept.  Both
    variants. *)
Theorem courseDeletion_removes_by_string :
  (∀ st st1 courseId,
     safe_key courseId → keys_safe (Local.users st) →
     Local.deleteCourse st courseId = (st1, true) →
     string_matched_removal courseId (Local.users st)
       (Local.users (Local.courseDeletion st courseId).1)) ∧
  (∀ st st1 courseId rdel,
     safe_key courseId → keys_safe (Remote.users st) →
     Remote.deleteCourse st courseId rdel = (st1, true) →
     string_matched_removal courseId (Remote.users st)
       (Remote.users (Remote.courseDeletion st courseId rdel).1)) ∧
  js_String (KStr "5") = js_String (KNum 5) ∧
  (∀ n u, safe_integer n →
          (KNum n ∉ remainingCourses (KNum n) u) ∧
          (KStr (js_String (KNum n)) ∉ remainingCourses (KNum n) u)) ∧
  (∀ n m u e,
     safe_integer n → safe_integer m →
     n ≠ m → (e = KNum m ∨ e = KStr (js_String (KNum m))) →
     e ∈ enrolledCourses u → e ∈ remainingCourses (KNum n) u).
Proof.
  split_and!.
  - intros st st1 courseId _ _ E. unfold Local.courseDeletion. rewrite E.
    apply Local_deleteCourse_true in E as (idx & _ & _ & Hus & _).
    rewrite cascade_spec. simpl. rewrite Hus.
    apply unenrolled_string_matched.
  - intros st st1 courseId rdel _ _ E. unfold Remote.courseDeletion.
    rewrite E.
    apply Remote_deleteCourse_true in E as (_ & idx & _ & _ & Hus & _).
    rewrite cascade_spec. simpl. rewrite Hus.
    apply unenrolled_string_matched.
  - reflexivity.
  - intros n u _. rewrite !remainingCourses_elem.
    split; intros [_ H]; by apply H.
  - intros n m u e _ _ Hnm He Hin. apply remainingCourses_elem.
    split; [done|].
    intros Heq. apply Hnm. symmetry. apply js_String_KNum_inj.
    by destruct He as [-> | ->].
Qed.

Lemma courseDeletion_removes_by_string_witness :
  let st := Local.init (Local.Catalog Local.seed) true sample_users in
  let st1 := (Local.deleteCourse st (KNum 1)).1 in
  safe_key (KNum 1) ∧ keys_safe (Local.users st) ∧
  Local.deleteCourse st (KNum 1) = (st1, true) ∧
  string_matched_removal (KNum 1) (Local.users st)
    (Local.users (Local.courseDeletion st (KNum 1)).1) ∧
  enrolledCourses <$> Local.users (Local.courseDeletion st (KNum 1)).1
  = [[KStr "2"; KNum 12]; [KNum 1]; [KNum 2]].
Proof.
  assert (safe_key (KNum 1)) as Hk by (unfold safe_key, safe_integer; lia).
  assert (keys_safe
            (Local.users
               (Local.init (Local.Catalog Local.seed) true sample_users)))
    as Hd
    by (repeat (apply Forall_cons_2 || apply Forall_nil_2);
        unfold safe_key, safe_integer; (exact I || lia)).
  assert (Local.deleteCourse
            (Local.init (Local.Catalog Local.seed) true sample_users) (KNum 1)
          = ((Local.deleteCourse
                (Local.init (Local.Catalog Local.seed) true sample_users)
                (KNum 1)).1, true)) as E by (vm_compute; reflexivity).
  split; [exact Hk|]. split; [exact Hd|]. split; [exact E|]. split.
  - destruct courseDeletion_removes_by_string as (Hlocal & _).
    exact (Hlocal _ _ _ Hk Hd E).
  - vm_compute. reflexivity.
Defined.

(** ** Analytics *)

Section stable_sort.
Context {A : Type} (key : A → Z).

Lemma sort_insert_perm (x : A) (l : list A) :
  sort_insert (descending key) x l ≡ₚ x :: l.
Proof.
  induction l as [|y l IH]; simpl; [done|].
  destruct (Z.leb (descending key x y) 0); [done|].
  rewrite IH. apply Permutation_swap.
Qed.

Lemma sort_perm (l : list A) : sort (descending key) l ≡ₚ l.
Proof.
  induction l as [|x l IH]; simpl; [done|].
  fold (sort (descending key) l). by rewrite sort_insert_perm, IH.
Qed.

Lemma sort_insert_sorted (x : A) (l : list A) :
  StronglySorted (λ a b, key b ≤ key a) l →
  StronglySorted (λ a b, key b ≤ key a) (sort_insert (descending key) x l).
Proof.
  induction 1 as [|y l Hl IH Hy]; simpl.
  - repeat constructor.
  - destruct (Z.leb_spec (descending key x y) 0) as [Hle|Hgt];
      [unfold descending in Hle | unfold descending in Hgt].
    + constructor; [by constructor|].
      constructor; [lia|].
      eapply Forall_impl; [exact Hy|]. simpl. intros; lia.
    + constructor; [done|].
      rewrite sort_insert_perm. constructor; [lia | done].
Qed.

Lemma sort_sorted (l : list A) :
  StronglySorted (λ a b, key b ≤ key a) (sort (descending key) l).
Proof.
  induction l as [|x l IH]; simpl; [constructor|].
  by apply sort_insert_sorted.
Qed.

Lemma sort_insert_stable (k : Z) (x : A) (l : list A) :
  filter (λ c, key c = k) (sort_insert (descending key) x l)
  = filter (λ c, key c = k) (x :: l).
Proof.
  induction l as [|y l IH]; simpl; [done|].
  destruct (Z.leb_spec (descending key x y) 0) as [Hle|Hgt]; [done|].
  unfold descending in Hgt. rewrite (filter_cons _ y), IH, !filter_cons.
  destruct (decide (key y = k)), (decide (key x = k)); try done. lia.
Qed.

Lemma sort_stable (k : Z) (l : list A) :
  filter (λ c, key c = k) (sort (descending key) l) = filter (λ c, key c = k) l.
Proof.
  induction l as [|x l IH]; simpl; [done|]. fold (sort (descending key) l).
  by rewrite sort_insert_stable, !filter_cons, IH.
Qed.

Lemma sort_stable_desc (l : list A) :
  stable_desc key l (sort (descending key) l).
Proof.
  split_and!; [apply sort_perm | apply sort_sorted |].
  intros k. apply sort_stable.
Qed.

(** A stable descending ranking is unique. *)
Lemma stable_ranking_unique (l1 l2 : list A) :
  l1 ≡ₚ l2 →
  StronglySorted (λ a b, key b ≤ key a) l1 →
  StronglySorted (λ a b, key b ≤ key a) l2 →
  (∀ k, filter (λ c, key c = k) l1 = filter (λ c, key c = k) l2) →
  l1 = l2.
Proof.
  revert l2. induction l1 as [|x l1 IH]; intros l2 Hp H1 H2 Hf.
  - by apply Permutation_nil_l in Hp.
  - destruct l2 as [|y l2]; [by apply Permutation_nil_r in Hp|].
    apply StronglySorted_inv in H1 as [H1 Hx], H2 as [H2 Hy].
    assert (key y ≤ key x) as Hyx.
    { assert (y ∈ x :: l1) as Hin by (rewrite Hp; left).
      apply elem_of_cons in Hin as [->|Hin]; [lia|].
      rewrite Forall_forall in Hx. by apply Hx. }
    assert (key x ≤ key y) as Hxy.
    { assert (x ∈ y :: l2) as Hin by (rewrite <- Hp; left).
      apply elem_of_cons in Hin as [->|Hin]; [lia|].
      rewrite Forall_forall in Hy. by apply Hy. }
    pose proof (Hf (key x)) as Hk.
    rewrite filter_cons_True, filter_cons_True in Hk by lia.
    injection Hk as <- _.
    f_equal. apply IH; [by apply Permutation_cons_inv in Hp|done..|].
    intros k. specialize (Hf k). rewrite !filter_cons in Hf.
    destruct (decide (key x = k)); [by injection Hf|done].
Qed.

Lemma stable_desc_sort (l ranked : list A) :
  stable_desc key l ranked → ranked = sort (descending key) l.
Proof.
  intros (Hp & Hs & Hf). apply stable_ranking_unique.
  - by rewrite Hp, sort_perm.
  - done.
  - apply sort_sorted.
  - intros k. by rewrite Hf, sort_stable.
Qed.

End stable_sort.

Lemma sort_ext {A} (cmp cmp' : A → A → Z) (l : list A) :
  (∀ a b, cmp a b = cmp' a b) → sort cmp l = sort cmp' l.
Proof.
  intros H. induction l as [|x l IH]; simpl; [done|].
  fold (sort cmp l) (sort cmp' l). rewrite IH.
  generalize (sort cmp' l). intros r.
  induction r as [|y r IHr]; simpl; [done|]. by rewrite H, IHr.
Qed.

Lemma arr_or_default {A} (v : option (list A)) : arr_or v = default [] v.
Proof. by destruct v. Qed.

Lemma num_or_default (v : option Z) : num_or v 0 = default 0 v.
Proof. destruct v as [n|]; [|done]. simpl. by destruct (Z.eqb_spec n 0). Qed.

(** The two keys of the ranking, on the fields of the record. *)
Lemma enrollments_length (c : Course) :
  enrollments c = Z.of_nat (length (default [] (students c))).
Proof. unfold enrollments. by destruct (students c). Qed.

Lemma visited_visits (c : Course) : visited c = default 0 (visits c).
Proof. apply num_or_default. Qed.

Lemma sort_enrollments (cl : list Course) :
  sort (descending enrollments) cl
  = sort (descending (λ c, Z.of_nat (length (default [] (students c))))) cl.
Proof.
  apply sort_ext. intros a b. unfold descending.
  by rewrite !enrollments_length.
Qed.

Lemma sort_visited (cl : list Course) :
  sort (descending visited) cl
  = sort (descending (λ c, default 0 (visits c))) cl.
Proof.
  apply sort_ext. intros a b. unfold descending. by rewrite !visited_visits.
Qed.

Lemma totalEnrollments_sum (cl : list Course) (acc : Z) :
  foldl (λ acc c, acc + enrollments c) acc cl = acc + sum_of enrollments cl.
Proof.
  revert acc. induction cl as [|c cl IH]; intros acc; simpl; [lia|].
  rewrite IH. unfold sum_of. lia.
Qed.

Lemma sum_of_enrollments (cl : list Course) :
  sum_of enrollments cl
  = Z.of_nat (sum_list_with (λ c, length (default [] (students c))) cl).
Proof.
  induction cl as [|c cl IH]; [done|].
  unfold sum_of in *. simpl. rewrite IH, enrollments_length. lia.
Qed.

(** [getAnalytics] on the store, step by step: four arrays are added after
    the existing ones, which stay as they are. *)
Lemma getAnalytics_in_steps (h : list (list Course)) (courseList : nat) :
  (courseList < length h)%nat →
  let cl := array_at h courseList in
  let s1 := sort (descending enrollments) cl in
  let s2 := sort (descending visited) cl in
  getAnalytics_in h courseList
  = (h ++ [s1; take 3 s1; s2; take 3 s2],
     {| totalCourses_of := Z.of_nat (length cl);
        totalEnrollments_of := foldl (λ acc c, acc + enrollments c) 0 cl;
        topCourses_at := S (length h);
        topVisited_at := S (S (S (length h))) |}).
Proof.
  intros Hlt cl s1 s2.
  assert (∀ l, array_at (h ++ l) courseList = cl) as Hcl.
  { intros l. unfold array_at. by rewrite lookup_app_l. }
  assert (∀ (l : list (list Course)) x r, array_at (l ++ x :: r) (length l) = x) as Hat.
  { intros l x r. unfold array_at. by rewrite list_lookup_middle. }
  assert (∀ f (l : list (list Course)) x r,
            alter f (length l) (l ++ x :: r) = l ++ f x :: r) as Halt.
  { intros f l x r.
    replace (length l) with (length l + 0)%nat at 1 by lia.
    by rewrite alter_app_r. }
  unfold getAnalytics_in, spread_array, slice_0_3, sort_in_place, new_array.
  fold cl. rewrite !Halt.
  rewrite (Hat h (sort (descending enrollments) cl) []). fold s1.
  rewrite <- !app_assoc. cbn [app]. rewrite !Hcl. fold s2.
  assert (array_at (h ++ [s1; take 3 s1; s2]) (length (h ++ [s1; take 3 s1]))
          = s2) as ->.
  { rewrite <- (Hat (h ++ [s1; take 3 s1]) s2 []) at 2.
    by rewrite <- app_assoc. }
  rewrite !length_app. cbn [length].
  do 2 f_equal; lia.
Qed.

(** C5: [getAnalytics] counts the courses, sums the lengths of the student
    lists (0 for a course without one), and returns as [topCourses] the
    first three courses of the stable descending ranking by length of the
    student list (ties in catalog order), as [topVisited] the first three
    by the [visits] field (0 when absent); on an empty catalog the result is
    all zeros and empty lists; run on arrays in memory it returns these
    values in two new arrays and leaves every array that existed, the
    catalog among them, as it was. *)
Theorem getAnalytics_spec (cl : list Course) :
  let a := getAnalytics cl in
  totalCourses a = Z.of_nat (length cl) ∧
  totalEnrollments a
  = Z.of_nat (sum_list_with (λ c, length (default [] (students c))) cl) ∧
  (∃ ranked,
     stable_desc (λ c, Z.of_nat (length (default [] (students c)))) cl ranked ∧
     topCourses a = take 3 ranked) ∧
  (∀ ranked,
     stable_desc (λ c, Z.of_nat (length (default [] (students c)))) cl ranked →
     topCourses a = take 3 ranked) ∧
  (∃ ranked,
     stable_desc (λ c, default 0 (visits c)) cl ranked ∧
     topVisited a = take 3 ranked) ∧
  (∀ ranked,
     stable_desc (λ c, default 0 (visits c)) cl ranked →
     topVisited a = take 3 ranked) ∧
  getAnalytics [] = {| totalCourses := 0; totalEnrollments := 0;
                       topCourses := []; topVisited := [] |} ∧
  (∀ h courseList,
     (courseList < length h)%nat → array_at h courseList = cl →
     let r := getAnalytics_in h courseList in
     analytics_at r.1 r.2 = a ∧
     array_at r.1 courseList = cl ∧
     (∀ i, (i < length h)%nat → r.1 !! i = h !! i) ∧
     (length h ≤ topCourses_at r.2)%nat ∧
     (length h ≤ topVisited_at r.2)%nat).
Proof.
  intros a. subst a. split_and!.
  - done.
  - simpl. by rewrite totalEnrollments_sum, sum_of_enrollments.
  - exists (sort (descending enrollments) cl). split; [|done].
    rewrite sort_enrollments. apply sort_stable_desc.
  - intros ranked H. simpl.
    by rewrite sort_enrollments, (stable_desc_sort _ _ _ H).
  - exists (sort (descending visited) cl). split; [|done].
    rewrite sort_visited. apply sort_stable_desc.
  - intros ranked H. simpl.
    by rewrite sort_visited, (stable_desc_sort _ _ _ H).
  - done.
  - intros h courseList Hlt Hcl r. subst r.
    rewrite (getAnalytics_in_steps h courseList Hlt), Hcl. cbn [fst snd].
    split_and!.
    + unfold analytics_at, getAnalytics, array_at.
      cbn [totalCourses_of totalEnrollments_of topCourses_at topVisited_at].
      f_equal.
      * replace (S (length h)) with (length h + 1)%nat by lia.
        by rewrite lookup_app_r, Nat.add_comm, Nat.add_sub by lia.
      * replace (S (S (S (length h)))) with (length h + 3)%nat by lia.
        by rewrite lookup_app_r, Nat.add_comm, Nat.add_sub by lia.
    + unfold array_at in *. by rewrite lookup_app_l.
    + intros i Hi. by rewrite lookup_app_l.
    + simpl. lia.
    + simpl. lia.
Qed.

(** The end-to-end example of the specification: A has 3 students and 5
    visits, B has 1 student and 9 visits. *)
Lemma getAnalytics_example :
  let A := sample_course 1 "A" 3 5 in
  let B := sample_course 2 "B" 1 9 in
  getAnalytics [A; B]
  = {| totalCourses := 2; totalEnrollments := 4;
       topCourses := [A; B]; topVisited := [B; A] |}.
Proof. vm_compute. reflexivity. Qed.

Lemma getAnalytics_spec_witness :
  let A := sample_course 1 "A" 3 5 in
  let B := sample_course 2 "B" 1 9 in
  let C := sample_course 3 "C" 1 7 in
  let D := sample_course 4 "D" 2 9 in
  let cl := [B; A; C; D] in
  stable_desc (λ c, Z.of_nat (length (default [] (students c)))) cl
    [A; D; B; C] ∧
  topCourses (getAnalytics cl) = [A; D; B] ∧
  stable_desc (λ c, default 0 (visits c)) cl [B; D; C; A] ∧
  topVisited (getAnalytics cl) = [B; D; C] ∧
  (1 < length [[A]; cl])%nat ∧ array_at [[A]; cl] 1 = cl ∧
  (let r := getAnalytics_in [[A]; cl] 1 in
   analytics_at r.1 r.2
   = {| totalCourses := 4; totalEnrollments := 7;
        topCourses := [A; D; B]; topVisited := [B; D; C] |} ∧
   array_at r.1 1 = cl).
Proof.
  set (A := sample_course 1 "A" 3 5).
  set (B := sample_course 2 "B" 1 9).
  set (C := sample_course 3 "C" 1 7).
  set (D := sample_course 4 "D" 2 9).
  assert (stable_desc (λ c, Z.of_nat (length (default [] (students c))))
            [B; A; C; D] [A; D; B; C]) as H1.
  { split_and!.
    - apply (perm_trans (l' := [A; B; C; D])); [|apply perm_swap].
      apply perm_skip.
      apply (perm_trans (l' := [B; D; C])); [apply perm_swap|].
      apply perm_skip, perm_swap.
    - repeat constructor; vm_compute; discriminate.
    - intros k. rewrite !filter_cons, !filter_nil.
      change (Z.of_nat (length (default [] (students A)))) with 3.
      change (Z.of_nat (length (default [] (students B)))) with 1.
      change (Z.of_nat (length (default [] (students C)))) with 1.
      change (Z.of_nat (length (default [] (students D)))) with 2.
      repeat case_decide; (done || lia). }
  assert (stable_desc (λ c, default 0 (visits c))
            [B; A; C; D] [B; D; C; A]) as H2.
  { split_and!.
    - apply perm_skip.
      apply (perm_trans (l' := [C; D; A])); [apply perm_swap|].
      apply (perm_trans (l' := [C; A; D])); [|apply perm_swap].
      apply perm_skip, perm_swap.
    - repeat constructor; vm_compute; discriminate.
    - intros k. rewrite !filter_cons, !filter_nil.
      change (default 0 (visits A)) with 5.
      change (default 0 (visits B)) with 9.
      change (default 0 (visits C)) with 7.
      change (default 0 (visits D)) with 9.
      repeat case_decide; (done || lia). }
  assert (1 < length [[A]; [B; A; C; D]])%nat as Hlt by (simpl; lia).
  assert (array_at [[A]; [B; A; C; D]] 1 = [B; A; C; D]) as Hcl
    by reflexivity.
  destruct (getAnalytics_spec [B; A; C; D])
    as (_ & _ & _ & Htop & _ & Hvis & _ & Hmem).
  destruct (Hmem _ _ Hlt Hcl) as (Hres & Hsame & _).
  split; [exact H1|]. split; [exact (Htop _ H1)|].
  split; [exact H2|]. split; [exact (Hvis _ H2)|].
  split; [exact Hlt|]. split; [exact Hcl|].
  split; [|exact Hsame].
  etransitivity; [exact Hres|]. vm_compute. reflexivity.
Defined.

(** ** Loading the catalog *)

Lemma loads_log_get (st : Remote.State) :
  Remote.loads (Remote.log st FetchCourses) = S (Remote.loads st).
Proof.
  unfold Remote.loads, Remote.log. simpl.
  rewrite filter_app, length_app. simpl. lia.
Qed.

Lemma loads_fetchCourses (st : Remote.State) (r : Remote.get_response) :
  Remote.loads (Remote.fetchCourses st r).1 = S (Remote.loads st).
Proof.
  unfold Remote.fetchCourses. destruct r; simpl; apply loads_log_get.
Qed.

Lemma listCourses_cached (st : Remote.State) (rget : Remote.get_response) :
  Remote.courseList st ≠ [] →
  Remote.listCourses st rget = (st, Remote.courseList st).
Proof. unfold Remote.listCourses. by destruct (Remote.courseList st). Qed.

Lemma listCourses_run_cached (st : Remote.State) (rs : list Remote.get_response) :
  Remote.courseList st ≠ [] →
  Remote.listCourses_run st rs
  = (st, replicate (length rs) (Remote.courseList st)).
Proof.
  intros Hne. induction rs as [|r rs IH]; simpl; [done|].
  by rewrite (listCourses_cached st r Hne), IH.
Qed.

(** C6, as amended: a [listCourses()] call loads the catalog from the
    backend exactly when the in-memory catalog is empty at that call.  A call
    on a non-empty catalog returns it and issues nothing, and so does every
    run of such calls; from the initial state, once the first load has
    delivered a non-empty catalog, that load stays the only one however many
    calls follow. *)
Theorem listCourses_loads :
  (∀ st rget, Remote.courseList st ≠ [] →
     Remote.listCourses st rget = (st, Remote.courseList st)) ∧
  (∀ st rget, Remote.courseList st = [] →
     Remote.listCourses st rget = Remote.fetchCourses st rget ∧
     Remote.loads (Remote.listCourses st rget).1 = S (Remote.loads st)) ∧
  (∀ st rs, Remote.courseList st ≠ [] →
     Remote.listCourses_run st rs
     = (st, replicate (length rs) (Remote.courseList st))) ∧
  (∀ dir data rs, data ≠ [] →
     let run := Remote.listCourses_run (Remote.init dir)
                  (Remote.GetOk data :: rs) in
     Remote.loads run.1 = 1%nat ∧
     Remote.courseList run.1 = data ∧
     run.2 = replicate (S (length rs)) data).
Proof.
  split_and!.
  - apply listCourses_cached.
  - intros st rget Hnil. unfold Remote.listCourses. rewrite Hnil.
    split; [done|]. apply loads_fetchCourses.
  - apply listCourses_run_cached.
  - intros dir data rs Hne. simpl.
    rewrite listCourses_run_cached by done. simpl. done.
Qed.

Lemma listCourses_loads_witness :
  let run := Remote.listCourses_run (Remote.init [])
               [Remote.GetOk Local.seed; Remote.GetNotOk; Remote.GetOk []] in
  Local.seed ≠ [] ∧
  Remote.loads run.1 = 1%nat ∧
  Remote.courseList run.1 = Local.seed ∧
  run.2 = replicate 3 Local.seed.
Proof.
  assert (Local.seed ≠ []) as Hne by discriminate.
  split; [exact Hne|].
  destruct listCourses_loads as (_ & _ & _ & Hrun).
  exact (Hrun [] Local.seed [Remote.GetNotOk; Remote.GetOk []] Hne).
Defined.

(** The catalog can be loaded more than once: while the backend delivers an
    empty catalog or fails, every call issues a load. *)
Lemma listCourses_loads_again :
  let run := Remote.listCourses_run (Remote.init [])
               [Remote.GetOk []; Remote.GetNetworkError; Remote.GetOk Local.seed] in
  Remote.loads run.1 = 3%nat ∧ run.2 = [[]; []; Local.seed].
Proof. vm_compute. done. Qed.

(** ** Initialization from the store *)

(** C7 on the code: the catalog is what [loadCourses] returns in every
    case, because an array is truthy and the seed after [||] is never
    taken; [loadCourses] itself returns the persisted array when there is
    one and the empty array otherwise, without throwing.  With no persisted
    item the catalog therefore starts empty, not with the two seed
    courses. *)
Theorem initial_courseList_never_seed :
  (∀ s, Local.initial_courseList s = Local.loadCourses s) ∧
  (∀ l, Local.initial_courseList (Local.Catalog l) = l) ∧
  Local.initial_courseList Local.NoItem = [] ∧
  Local.initial_courseList Local.Unreadable = [] ∧
  Local.initial_courseList Local.Falsy = [] ∧
  Local.initial_courseList Local.NoItem ≠ Local.seed ∧
  title <$> Local.seed = ["Multimedia Basics"; "Graphic Design"].
Proof. split_and!; done. Qed.

(** ** Enrollment *)

Lemma strict_eq_spec (a b : key) :
  strict_eq a b = true ↔ a = b ∧ b ≠ KNaN.
Proof.
  unfold strict_eq.
  destruct a, b; rewrite ?bool_decide_eq_true; split;
    try done; try (by intros [? ?]); by intros ->.
Qed.

Lemma enrolled_spec (userId : key) (l : list enrollment) :
  enrolled userId l = true ↔ userId ≠ KNaN ∧ userId ∈ fst <$> l.
Proof.
  unfold enrolled. rewrite existsb_exists, list_elem_of_fmap. split.
  - intros (s & Hs%list_elem_of_In & [Heq Hne]%strict_eq_spec). eauto.
  - intros (Hne & s & -> & Hs). exists s. split; [by apply list_elem_of_In|].
    by apply strict_eq_spec.
Qed.

Lemma enrolled_absent (userId : key) (l : list enrollment) :
  userId ∉ fst <$> l → enrolled userId l = false.
Proof.
  intros Hn. destruct (enrolled userId l) eqn:E; [|done].
  by apply enrolled_spec in E as [_ E].
Qed.

Lemma enrolled_false (userId : key) (l : list enrollment) :
  userId ≠ KNaN → enrolled userId l = false → userId ∉ fst <$> l.
Proof.
  intros Hne E Hin.
  assert (enrolled userId l = true) as E' by (by apply enrolled_spec).
  congruence.
Qed.

Lemma enrolled_NaN (l : list enrollment) : enrolled KNaN l = false.
Proof.
  destruct (enrolled KNaN l) eqn:E; [|done].
  by apply enrolled_spec in E as [E _].
Qed.

Lemma find_elem (cl : list Course) (cid : key) (idx : nat) (c : Course) :
  list_find (λ c, KNum (id c) = cid) cl = Some (idx, c) → c ∈ cl.
Proof.
  intros (Hl & _)%list_find_Some. by eapply list_elem_of_lookup_2.
Qed.

Lemma unique_students_found (cl : list Course) (cid : key) (idx : nat)
    (c : Course) :
  unique_students cl →
  list_find (λ c, KNum (id c) = cid) cl = Some (idx, c) →
  NoDup (fst <$> arr_or (students c)).
Proof.
  intros Hu Hf. unfold unique_students in Hu. rewrite Forall_forall in Hu.
  apply Hu. by eapply find_elem.
Qed.

Lemma enroll_unique (cl cl' : list Course) (userId cid : key) (now : string) :
  userId ≠ KNaN →
  enroll cl userId cid now = Some cl' →
  unique_students cl → unique_students cl'.
Proof.
  unfold enroll. intros Hnan E Hu.
  destruct (list_find _ cl) as [[idx c]|] eqn:Hf; [|done].
  destruct (enrolled userId (arr_or (students c))) eqn:He; [done|].
  injection E as <-. apply Forall_insert; [done|]. simpl.
  rewrite fmap_app. apply NoDup_app. split_and!.
  - by eapply unique_students_found.
  - intros x Hx Hx'. apply list_elem_of_singleton in Hx'. simpl in Hx'.
    subst x. by apply (enrolled_false _ _ Hnan He).
  - apply NoDup_singleton.
Qed.

Lemma visit_unique (cl cl' : list Course) (cid : key) (v : Z) :
  visit cl cid = Some (cl', v) →
  unique_students cl → unique_students cl'.
Proof.
  unfold visit. intros E Hu.
  destruct (list_find _ cl) as [[idx c]|] eqn:Hf; [|done].
  injection E as <- _. apply Forall_insert; [done|]. simpl.
  by eapply unique_students_found.
Qed.

Lemma edit_unique (cl cl' : list Course) (cid : key) (data : PartialCourse)
    (c' : Course) :
  edit cl cid data = Normal (Some (cl', c')) →
  supplies_unique data →
  unique_students cl → unique_students cl'.
Proof.
  unfold edit, supplies_unique. intros E Hs Hu.
  destruct (list_find _ cl) as [[idx c]|] eqn:Hf; [|done].
  destruct (union_categories _ _) as [cats|]; [|done].
  injection E as <- _. apply Forall_insert; [done|]. simpl.
  destruct (p_students data) as [s|]; simpl; [done|].
  by eapply unique_students_found.
Qed.

Lemma create_unique (cl : list Course) (course : PartialCourse) (n : Z) :
  supplies_unique course →
  unique_students cl → unique_students (cl ++ [newCourse course n]).
Proof.
  unfold supplies_unique. intros Hs Hu.
  apply Forall_app. split; [done|]. apply Forall_singleton. simpl.
  destruct (p_students course) as [s|]; simpl; [done|]. constructor.
Qed.

Lemma has_title_Some (arg : option PartialCourse) (course : PartialCourse) :
  has_title arg = Some course → arg = Some course.
Proof.
  unfold has_title. destruct arg as [c|]; [|done].
  destruct (p_title c) as [t|]; [|done].
  destruct (String.eqb t ""); [done|]. by intros [= ->].
Qed.

Lemma step_unique (st : Local.State) (op : Local.Op) :
  Local.well_supplied op →
  unique_students (Local.courseList st) →
  unique_students (Local.courseList (Local.step st op)).
Proof.
  intros Hop Hu. destruct op as [arg|cid data|u cid now|cid|cid|cid]; simpl.
  - unfold Local.createCourse.
    destruct (has_title arg) as [course|] eqn:Ht; [|done]. simpl.
    rewrite LocalFacts.courseList_saveCourses. simpl.
    apply has_title_Some in Ht as ->. by apply create_unique.
  - unfold Local.editCourse.
    destruct (edit _ cid data) as [[[cl' c']|]|] eqn:E; simpl; [|done..].
    rewrite LocalFacts.courseList_saveCourses. simpl. by eapply edit_unique.
  - unfold Local.enrollUser.
    destruct (enroll _ u cid now) as [cl'|] eqn:E; simpl; [|done].
    rewrite LocalFacts.courseList_saveCourses. simpl.
    by eapply (enroll_unique _ _ u).
  - unfold Local.incrementVisits.
    destruct (visit _ cid) as [[cl' v]|] eqn:E; simpl; [|done].
    rewrite LocalFacts.courseList_saveCourses. simpl. by eapply visit_unique.
  - unfold Local.deleteCourse.
    destruct (_findCourseIndex _ cid) as [idx|]; simpl; [|done].
    rewrite LocalFacts.courseList_saveCourses. simpl. by apply Forall_delete.
  - unfold Local.courseDeletion, Local.deleteCourse.
    destruct (_findCourseIndex _ cid) as [idx|]; simpl; [|done].
    destruct (cascade _ _ _) as [dir tr]. simpl.
    rewrite LocalFacts.courseList_saveCourses. simpl. by apply Forall_delete.
Qed.

(** C8, as amended: if no course of the catalog lists a user id twice, then
    after every run of repository operations (createCourse, editCourse,
    enrollUser, incrementVisits, deleteCourse, courseDeletion) in which the
    arguments of createCourse and editCourse supply either no students or
    students without a repeated user id, and enrollUser is never called with
    NaN as user id, no course lists a user id twice. *)
Theorem operations_keep_students_unique (st : Local.State) (ops : list Local.Op) :
  Forall Local.well_supplied ops →
  unique_students (Local.courseList st) →
  unique_students (Local.courseList (foldl Local.step st ops)).
Proof.
  intros Hops. revert st.
  induction Hops as [|op ops Hop _ IH]; intros st Hu; simpl; [done|].
  apply IH. by apply step_unique.
Qed.

Lemma operations_keep_students_unique_witness :
  let st := Local.init (Local.Catalog Local.seed) true sample_users in
  let ops := [ Local.OpEnroll (KNum 7) (KNum 1) "2024-05-01T10:00:00.000Z";
               Local.OpEnroll (KNum 7) (KNum 1) "2024-05-02T10:00:00.000Z";
               Local.OpCreate (Some (titled "Algebra"));
               Local.OpEnroll (KStr "7") (KNum 1) "2024-05-03T10:00:00.000Z";
               Local.OpVisit (KNum 2);
               Local.OpCourseDeletion (KNum 2) ] in
  Forall Local.well_supplied ops ∧
  unique_students (Local.courseList st) ∧
  unique_students (Local.courseList (foldl Local.step st ops)).
Proof.
  assert (Forall Local.well_supplied
            [ Local.OpEnroll (KNum 7) (KNum 1) "2024-05-01T10:00:00.000Z";
              Local.OpEnroll (KNum 7) (KNum 1) "2024-05-02T10:00:00.000Z";
              Local.OpCreate (Some (titled "Algebra"));
              Local.OpEnroll (KStr "7") (KNum 1) "2024-05-03T10:00:00.000Z";
              Local.OpVisit (KNum 2);
              Local.OpCourseDeletion (KNum 2) ]) as Hops
    by (repeat constructor; discriminate).
  assert (unique_students
            (Local.courseList
               (Local.init (Local.Catalog Local.seed) true sample_users)))
    as Hu by (repeat constructor).
  split; [exact Hops|]. split; [exact Hu|].
  exact (operations_keep_students_unique _ _ Hops Hu).
Defined.

(** [createCourse] stores the students it is given as they are, repeated
    user ids included. *)
Lemma createCourse_keeps_repeated_students :
  let st := Local.init Local.NoItem true [] in
  let twice := [(KNum 7, "2024-05-01T10:00:00.000Z");
                (KNum 7, "2024-05-02T10:00:00.000Z")] in
  let st' := Local.step st
               (Local.OpCreate (Some (titled_with_students "Algebra" twice))) in
  unique_students (Local.courseList st) ∧
  students <$> getCourse (Local.courseList st') (KNum 1) = Some (Some twice) ∧
  ¬ unique_students (Local.courseList st').
Proof.
  split_and!.
  - constructor.
  - vm_compute. reflexivity.
  - intros H. vm_compute in H. apply Forall_inv in H.
    apply NoDup_cons in H as [H _]. apply H. left.
Qed.

Lemma strict_eq_number_string (n : Z) (s : string) :
  strict_eq (KNum n) (KStr s) = false.
Proof. reflexivity. Qed.

(** C10, as amended: [enrollUser] looks for the user id with strict
    equality.  When the course found for [courseId] already has an entry
    with the number [n] as user id and none with the string form of [n],
    [enrollUser] called with that string returns [true] and appends a second
    entry, so the list then holds the person once as a number and once as a
    string.  Both variants. *)
Theorem enrollUser_strict_equality (cl : list Course) (courseId : key)
    (idx : nat) (c : Course) (l : list enrollment) (n : Z) (now : string) :
  list_find (λ c, KNum (id c) = courseId) cl = Some (idx, c) →
  students c = Some l →
  KNum n ∈ fst <$> l →
  KStr (js_String (KNum n)) ∉ fst <$> l →
  let userId := KStr (js_String (KNum n)) in
  let l' := l ++ [(userId, now)] in
  let cl' := <[idx := with_students c (Some l')]> cl in
  (∀ st, Local.courseList st = cl →
     (Local.enrollUser st userId courseId now).2 = true ∧
     Local.courseList (Local.enrollUser st userId courseId now).1 = cl') ∧
  (∀ st, Remote.courseList st = cl →
     (Remote.enrollUser st userId courseId now).2 = true ∧
     Remote.courseList (Remote.enrollUser st userId courseId now).1 = cl') ∧
  students <$> getCourse cl' courseId = Some (Some l') ∧
  KNum n ∈ fst <$> l' ∧ userId ∈ fst <$> l' ∧
  length l' = S (length l).
Proof.
  intros Hf Hst Hn Hs userId l' cl'.
  assert (enroll cl userId courseId now = Some cl') as E.
  { unfold enroll. rewrite Hf, Hst. simpl.
    apply enrolled_absent in Hs. fold userId in Hs. by rewrite Hs. }
  split_and!.
  - intros st <-. unfold Local.enrollUser. rewrite E. simpl.
    by rewrite LocalFacts.courseList_saveCourses.
  - intros st <-. unfold Remote.enrollUser. by rewrite E.
  - unfold getCourse, cl'.
    pose proof Hf as (Hl & Hp & Hleast)%list_find_Some.
    assert (list_find (λ c, KNum (id c) = courseId)
              (<[idx := with_students c (Some l')]> cl)
            = Some (idx, with_students c (Some l'))) as ->; [|done].
    apply list_find_Some. split_and!.
    + apply list_lookup_insert_eq. by eapply lookup_lt_Some.
    + done.
    + intros j y Hj Hlt. rewrite list_lookup_insert_ne in Hj by lia.
      by eapply Hleast.
  - unfold l'. rewrite fmap_app. apply elem_of_app. by left.
  - unfold l'. rewrite fmap_app. apply elem_of_app. right. simpl. left.
  - unfold l'. rewrite length_app. simpl. lia.
Qed.

Lemma enrollUser_strict_equality_witness :
  let c := sample_course 1 "A" 8 0 in
  let cl := [c] in
  let l := default [] (students c) in
  let userId := KStr "5" in
  let now := "2024-05-01T10:00:00.000Z" in
  list_find (λ c, KNum (id c) = KNum 1) cl = Some (0%nat, c) ∧
  students c = Some l ∧
  (KNum 5 ∈ fst <$> l) ∧
  (KStr (js_String (KNum 5)) ∉ fst <$> l) ∧
  ∀ st, Local.courseList st = cl →
    (Local.enrollUser st userId (KNum 1) now).2 = true ∧
    Local.courseList (Local.enrollUser st userId (KNum 1) now).1
    = <[0%nat := with_students c (Some (l ++ [(userId, now)]))]> cl.
Proof.
  assert (list_find (λ c, KNum (id c) = KNum 1) [sample_course 1 "A" 8 0]
          = Some (0%nat, sample_course 1 "A" 8 0)) as Hf
    by (vm_compute; reflexivity).
  assert (students (sample_course 1 "A" 8 0)
          = Some (default [] (students (sample_course 1 "A" 8 0)))) as Hst
    by reflexivity.
  assert (KNum 5 ∈ fst <$> default [] (students (sample_course 1 "A" 8 0)))
    as Hn by (apply (bool_decide_unpack _); vm_compute; exact I).
  assert (KStr (js_String (KNum 5))
            ∉ fst <$> default [] (students (sample_course 1 "A" 8 0)))
    as Hs by (apply (bool_decide_unpack _); vm_compute; exact I).
  split; [exact Hf|]. split; [exact Hst|]. split; [exact Hn|].
  split; [exact Hs|].
  destruct (enrollUser_strict_equality [sample_course 1 "A" 8 0] (KNum 1)
              0%nat (sample_course 1 "A" 8 0) _ 5
              "2024-05-01T10:00:00.000Z" Hf Hst Hn Hs) as (Hlocal & _).
  exact Hlocal.
Defined.

(** Numeric user id [5] already among the students, and yet
    [enrollUser("5", ...)] returns [false]: the string has been enrolled
    too. *)
Lemma enrollUser_string_already_enrolled :
  let st0 := Local.init Local.NoItem true [] in
  let st1 := Local.step st0
               (Local.OpCreate
                  (Some (titled_with_students "Algebra"
                           [(KNum 5, "2024-05-01T10:00:00.000Z")]))) in
  let '(st2, first) :=
    Local.enrollUser st1 (KStr "5") (KNum 1) "2024-05-02T10:00:00.000Z" in
  let '(st3, second) :=
    Local.enrollUser st2 (KStr "5") (KNum 1) "2024-05-03T10:00:00.000Z" in
  first = true ∧
  students <$> getCourse (Local.courseList st2) (KNum 1)
  = Some (Some [(KNum 5, "2024-05-01T10:00:00.000Z");
                (KStr "5", "2024-05-02T10:00:00.000Z")]) ∧
  second = false ∧ st3 = st2.
Proof. vm_compute. done. Qed.

(** * Further properties of the module *)

(** ** Lookup after creation and deletion *)

Lemma find_none_iff (cl : list Course) (cid : key) :
  list_find (λ c, KNum (id c) = cid) cl = None ↔
  Forall (λ c, KNum (id c) ≠ cid) cl.
Proof. apply list_find_None. Qed.

Lemma find_split (cl : list Course) (cid : key) (idx : nat) (c : Course) :
  list_find (λ c, KNum (id c) = cid) cl = Some (idx, c) ↔
  ∃ l1 l2, cl = l1 ++ c :: l2 ∧ length l1 = idx ∧ KNum (id c) = cid ∧
           Forall (λ c0, KNum (id c0) ≠ cid) l1.
Proof.
  rewrite list_find_Some. split.
  - intros (Hl & Hp & Hleast).
    exists (take idx cl), (drop (S idx) cl). split_and!.
    + by rewrite take_drop_middle.
    + apply length_take_le. apply lookup_lt_Some in Hl. lia.
    + done.
    + apply Forall_lookup. intros j y Hj.
      pose proof (lookup_lt_Some _ _ _ Hj) as Hlt.
      rewrite length_take in Hlt.
      rewrite lookup_take_lt in Hj by lia. eapply Hleast; [done|lia].
  - intros (l1 & l2 & -> & <- & Hp & Hl1). split_and!.
    + by rewrite list_lookup_middle.
    + done.
    + intros j y Hj Hlt. rewrite lookup_app_l in Hj by done.
      rewrite Forall_lookup in Hl1. by eapply Hl1.
Qed.

Lemma find_fresh (cl : list Course) (c : Course) :
  Forall (λ c0, id c0 < id c) cl →
  list_find (λ c0, KNum (id c0) = KNum (id c)) (cl ++ [c])
  = Some (length cl, c).
Proof.
  intros Hlt. apply find_split. exists cl, []. split_and!; try done.
  eapply Forall_impl; [exact Hlt|]. simpl. intros c0 H [= E]. lia.
Qed.

Lemma find_fresh_none (cl : list Course) (n : Z) :
  Forall (λ c0, id c0 < n) cl →
  list_find (λ c0, KNum (id c0) = KNum n) cl = None.
Proof.
  intros Hlt. apply find_none_iff.
  eapply Forall_impl; [exact Hlt|]. simpl. intros c0 H [= E]. lia.
Qed.

Lemma seed_ids_safe : ids_safe Local.seed.
Proof.
  repeat (apply Forall_cons_2; [unfold safe_integer; simpl; lia|]).
  apply Forall_nil_2.
Defined.

(** X2: on a catalog whose ids are safe integers, a course just created is
    found by [getCourse] under its new id, which no course had before;
    every course that could be looked up before the creation is still
    returned for the same id. *)
Theorem createCourse_then_getCourse (st st' : Local.State)
    (arg : option PartialCourse) (c : Course) :
  ids_safe (Local.courseList st) →
  Local.createCourse st arg = (st', Some c) →
  getCourse (Local.courseList st) (KNum (id c)) = None ∧
  getCourse (Local.courseList st') (KNum (id c)) = Some c ∧
  (∀ cid c0, getCourse (Local.courseList st) cid = Some c0 →
             getCourse (Local.courseList st') cid = Some c0).
Proof.
  intros Hsafe E. apply LocalFacts.createCourse_Some in E as [Hcl Hid].
  pose proof (generate_fresh (Local.courseList st) Hsafe) as Hfresh.
  rewrite <- Hid in Hfresh. rewrite Hcl. unfold getCourse. split_and!.
  - by rewrite find_fresh_none.
  - by rewrite find_fresh.
  - intros cid c0 H.
    destruct (list_find _ (Local.courseList st)) as [[i c1]|] eqn:Hf; [|done].
    by rewrite (list_find_app_l _ _ _ _ _ Hf).
Qed.

Lemma createCourse_then_getCourse_witness :
  let st := Local.init (Local.Catalog Local.seed) true [] in
  let arg := Some (titled "Algebra") in
  let c := newCourse (titled "Algebra") 3 in
  ids_safe (Local.courseList st) ∧
  Local.createCourse st arg = ((Local.createCourse st arg).1, Some c) ∧
  getCourse (Local.courseList st) (KNum 3) = None ∧
  getCourse (Local.courseList (Local.createCourse st arg).1) (KNum 3) = Some c.
Proof.
  assert (Local.createCourse
            (Local.init (Local.Catalog Local.seed) true [])
            (Some (titled "Algebra"))
          = ((Local.createCourse
                (Local.init (Local.Catalog Local.seed) true [])
                (Some (titled "Algebra"))).1,
             Some (newCourse (titled "Algebra") 3))) as E
    by (vm_compute; reflexivity).
  split; [exact seed_ids_safe|]. split; [exact E|].
  destruct (createCourse_then_getCourse
              (Local.init (Local.Catalog Local.seed) true []) _ _ _
              seed_ids_safe E)
    as (Hfree & Hfound & _).
  split; [exact Hfree | exact Hfound].
Defined.

(** X3: [deleteCourse] returns [false] and leaves the whole state as it is
    exactly when no course has the id; otherwise it removes the first
    course with that id, keeps all others in their order, and returns
    [true]. *)
Theorem deleteCourse_removes_first (st : Local.State) (cid : key) :
  (Forall (λ c, KNum (id c) ≠ cid) (Local.courseList st) →
     Local.deleteCourse st cid = (st, false)) ∧
  (∀ l1 c l2,
     Local.courseList st = l1 ++ c :: l2 →
     Forall (λ c0, KNum (id c0) ≠ cid) l1 →
     KNum (id c) = cid →
     (Local.deleteCourse st cid).2 = true ∧
     Local.courseList (Local.deleteCourse st cid).1 = l1 ++ l2) ∧
  ((Local.deleteCourse st cid).2 = false →
     Forall (λ c, KNum (id c) ≠ cid) (Local.courseList st)).
Proof.
  unfold Local.deleteCourse, _findCourseIndex. split_and!.
  - intros H. apply find_none_iff in H. by rewrite H.
  - intros l1 c l2 Hcl Hl1 Hc.
    assert (list_find (λ c, KNum (id c) = cid) (Local.courseList st)
            = Some (length l1, c)) as ->.
    { apply find_split. by exists l1, l2. }
    simpl. split; [done|].
    rewrite LocalFacts.courseList_saveCourses. simpl.
    rewrite Hcl. apply delete_middle.
  - destruct (list_find _ (Local.courseList st)) as [[i c]|] eqn:Hf; simpl.
    + done.
    + intros _. by apply find_none_iff.
Qed.

Lemma deleteCourse_removes_first_witness :
  let st := Local.init (Local.Catalog Local.seed) true [] in
  Forall (λ c, KNum (id c) ≠ KStr "1") (Local.courseList st) ∧
  Local.deleteCourse st (KStr "1") = (st, false).
Proof.
  assert (Forall (λ c, KNum (id c) ≠ KStr "1")
            (Local.courseList (Local.init (Local.Catalog Local.seed) true [])))
    as H by (repeat constructor; discriminate).
  split; [exact H|].
  destruct (deleteCourse_removes_first
              (Local.init (Local.Catalog Local.seed) true []) (KStr "1"))
    as (Hnone & _).
  exact (Hnone H).
Defined.

(** X4: on a catalog whose ids are safe integers, creating a course and
    then deleting it by the id it was given brings the catalog back to what
    it was. *)
Theorem createCourse_then_deleteCourse (st st1 : Local.State)
    (arg : option PartialCourse) (c : Course) :
  ids_safe (Local.courseList st) →
  Local.createCourse st arg = (st1, Some c) →
  (Local.deleteCourse st1 (KNum (id c))).2 = true ∧
  Local.courseList (Local.deleteCourse st1 (KNum (id c))).1
  = Local.courseList st.
Proof.
  intros Hsafe E. apply LocalFacts.createCourse_Some in E as [Hcl Hid].
  pose proof (generate_fresh (Local.courseList st) Hsafe) as Hfresh.
  rewrite <- Hid in Hfresh.
  unfold Local.deleteCourse, _findCourseIndex.
  rewrite Hcl, find_fresh by done. simpl. split; [done|].
  rewrite LocalFacts.courseList_saveCourses. simpl.
  rewrite delete_middle. apply app_nil_r.
Qed.

Lemma createCourse_then_deleteCourse_witness :
  let st := Local.init (Local.Catalog Local.seed) true [] in
  let arg := Some (titled "Algebra") in
  let c := newCourse (titled "Algebra") 3 in
  let st1 := (Local.createCourse st arg).1 in
  ids_safe (Local.courseList st) ∧
  Local.createCourse st arg = (st1, Some c) ∧
  (Local.deleteCourse st1 (KNum (id c))).2 = true ∧
  Local.courseList (Local.deleteCourse st1 (KNum (id c))).1
  = Local.courseList st.
Proof.
  assert (Local.createCourse
            (Local.init (Local.Catalog Local.seed) true [])
            (Some (titled "Algebra"))
          = ((Local.createCourse
                (Local.init (Local.Catalog Local.seed) true [])
                (Some (titled "Algebra"))).1,
             Some (newCourse (titled "Algebra") 3))) as E
    by (vm_compute; reflexivity).
  split; [exact seed_ids_safe|]. split; [exact E|].
  exact (createCourse_then_deleteCourse
           (Local.init (Local.Catalog Local.seed) true []) _ _ _
           seed_ids_safe E).
Defined.

(** ** Rejected creations *)

Lemma has_title_None (arg : option PartialCourse) :
  has_title arg = None ↔
  arg = None ∨
  ∃ course, arg = Some course ∧
            (p_title course = None ∨ p_title course = Some "").
Proof.
  unfold has_title. destruct arg as [course|]; [|by split; [left|]].
  destruct (p_title course) as [t|] eqn:Ht.
  - destruct (String.eqb_spec t "") as [->|Hne].
    + split; [|done]. intros _. right. exists course. by split; [|right].
    + split; [done|]. intros [H|(c & [= <-] & [H|H])]; [done| |].
      * by rewrite Ht in H.
      * rewrite Ht in H. by injection H.
  - split; [|done]. intros _. right. exists course. by split; [|left].
Qed.

(** X1: [createCourse] returns [null] exactly when it is given no object,
    or an object whose title is missing or empty; it then changes nothing,
    and the remote-backed variant sends nothing to the backend. *)
Theorem createCourse_rejects_untitled (arg : option PartialCourse) :
  let untitled :=
    arg = None ∨
    ∃ course, arg = Some course ∧
              (p_title course = None ∨ p_title course = Some "") in
  (∀ st, (Local.createCourse st arg).2 = None ↔ untitled) ∧
  (untitled → ∀ st, Local.createCourse st arg = (st, None)) ∧
  (untitled → ∀ st rget radd,
     Remote.createCourse st arg rget radd = (st, None)).
Proof.
  intros untitled. subst untitled. split_and!.
  - intros st. rewrite <- has_title_None. unfold Local.createCourse.
    by destruct (has_title arg).
  - intros H%has_title_None st. unfold Local.createCourse. by rewrite H.
  - intros H%has_title_None st rget radd. unfold Remote.createCourse.
    by rewrite H.
Qed.

Lemma createCourse_rejects_untitled_witness :
  let arg := Some (titled "") in
  (arg = None ∨
   ∃ course, arg = Some course ∧
             (p_title course = None ∨ p_title course = Some "")) ∧
  ∀ st, Local.createCourse st arg = (st, None).
Proof.
  assert (Some (titled "") = None ∨
          ∃ course, Some (titled "") = Some course ∧
                    (p_title course = None ∨ p_title course = Some "")) as H
    by (right; exists (titled ""); split; [reflexivity | right; reflexivity]).
  split; [exact H|].
  destruct (createCourse_rejects_untitled (Some (titled ""))) as (_ & Hl & _).
  exact (Hl H).
Defined.

(** ** Enrollment and visits *)

Lemma find_insert_same (cl : list Course) (cid : key) (idx : nat)
    (c c' : Course) :
  list_find (λ c, KNum (id c) = cid) cl = Some (idx, c) →
  id c' = id c →
  list_find (λ c, KNum (id c) = cid) (<[idx := c']> cl) = Some (idx, c').
Proof.
  intros (Hl & Hp & Hleast)%list_find_Some Hid. apply list_find_Some.
  split_and!.
  - apply list_lookup_insert_eq. by eapply lookup_lt_Some.
  - by rewrite Hid.
  - intros j y Hj Hlt. rewrite list_lookup_insert_ne in Hj by lia.
    by eapply Hleast.
Qed.

Lemma enroll_again (cl cl' : list Course) (userId cid : key) (now now' : string) :
  userId ≠ KNaN →
  enroll cl userId cid now = Some cl' →
  enroll cl' userId cid now' = None.
Proof.
  unfold enroll. intros Hnan E.
  destruct (list_find _ cl) as [[idx c]|] eqn:Hf; [|done].
  destruct (enrolled userId (arr_or (students c))) eqn:He; [done|].
  injection E as <-.
  rewrite (find_insert_same cl cid idx c
             (with_students c (Some (arr_or (students c) ++ [(userId, now)])))
             Hf eq_refl).
  simpl.
  assert (enrolled userId (arr_or (students c) ++ [(userId, now)]) = true)
    as ->; [|done].
  apply enrolled_spec. split; [done|].
  rewrite fmap_app. apply elem_of_app. right. left.
Qed.

(** X5: for a user id other than [NaN], [enrollUser] repeated with the
    same user and course returns [false] and changes nothing, whatever the
    first call did; both variants. *)
Theorem enrollUser_repeat (userId courseId : key) (now now' : string) :
  userId ≠ KNaN →
  (∀ st,
     let st1 := (Local.enrollUser st userId courseId now).1 in
     Local.enrollUser st1 userId courseId now' = (st1, false)) ∧
  (∀ st,
     let st1 := (Remote.enrollUser st userId courseId now).1 in
     Remote.enrollUser st1 userId courseId now' = (st1, false)).
Proof.
  intros Hnan. split; intros st st1; subst st1.
  - unfold Local.enrollUser.
    destruct (enroll (Local.courseList st) userId courseId now) as [cl'|] eqn:E;
      simpl.
    + rewrite LocalFacts.courseList_saveCourses. simpl.
      by rewrite (enroll_again _ _ _ _ _ now' Hnan E).
    + destruct (enroll (Local.courseList st) userId courseId now') eqn:E';
        [|done].
      exfalso. unfold enroll in E, E'.
      destruct (list_find _ (Local.courseList st)) as [[idx c]|]; [|done].
      by destruct (enrolled userId (arr_or (students c))).
  - unfold Remote.enrollUser.
    destruct (enroll (Remote.courseList st) userId courseId now) as [cl'|] eqn:E;
      simpl.
    + by rewrite (enroll_again _ _ _ _ _ now' Hnan E).
    + destruct (enroll (Remote.courseList st) userId courseId now') eqn:E';
        [|done].
      exfalso. unfold enroll in E, E'.
      destruct (list_find _ (Remote.courseList st)) as [[idx c]|]; [|done].
      by destruct (enrolled userId (arr_or (students c))).
Qed.

Lemma enrollUser_repeat_witness :
  let st := Local.init (Local.Catalog Local.seed) true [] in
  let st1 := (Local.enrollUser st (KNum 7) (KNum 1) "2024-05-01T10:00:00.000Z").1 in
  KNum 7 ≠ KNaN ∧
  Local.enrollUser st1 (KNum 7) (KNum 1) "2024-05-02T10:00:00.000Z"
  = (st1, false).
Proof.
  assert (KNum 7 ≠ KNaN) as Hnan by discriminate.
  split; [exact Hnan|].
  exact (proj1 (enrollUser_repeat (KNum 7) (KNum 1)
                  "2024-05-01T10:00:00.000Z" "2024-05-02T10:00:00.000Z" Hnan)
           (Local.init (Local.Catalog Local.seed) true [])).
Defined.

(** [NaN] is the exception: it is never found among the students, so
    every call on an existing course enrolls it once more. *)
Lemma enrollUser_NaN_not_refused (st : Local.State) (courseId : key)
    (now : string) (c : Course) :
  getCourse (Local.courseList st) courseId = Some c →
  (Local.enrollUser st KNaN courseId now).2 = true.
Proof.
  unfold getCourse, Local.enrollUser, enroll.
  destruct (list_find _ (Local.courseList st)) as [[idx c0]|]; [|done].
  intros _. by rewrite enrolled_NaN.
Qed.

(** X6: [enrollUser] returns [true] exactly when [getCourse] finds the
    course and no entry of its students has that user id under strict
    equality ([NaN] is never found); it then appends the entry
    [(userId, now)] at the end of that course's students; when it returns
    [false] it changes nothing. *)
Theorem enrollUser_appends (st : Local.State) (userId courseId : key)
    (now : string) :
  let r := Local.enrollUser st userId courseId now in
  (r.2 = true ↔
     ∃ c, getCourse (Local.courseList st) courseId = Some c ∧
          (userId = KNaN ∨ userId ∉ fst <$> default [] (students c))) ∧
  (∀ c, r.2 = true →
        getCourse (Local.courseList st) courseId = Some c →
        ∃ c', getCourse (Local.courseList r.1) courseId = Some c' ∧
              students c'
              = Some (default [] (students c) ++ [(userId, now)])) ∧
  (r.2 = false → r.1 = st).
Proof.
  intros r. subst r. unfold Local.enrollUser, enroll, getCourse.
  destruct (list_find _ (Local.courseList st)) as [[idx c]|] eqn:Hf; simpl.
  - rewrite arr_or_default.
    destruct (enrolled userId (default [] (students c))) eqn:He; simpl.
    + apply enrolled_spec in He as [Hnan Hin].
      split_and!; try done. split; [done|].
      intros (c0 & [= <-] & [?|?]); done.
    + split_and!; try done.
      * split; [|done]. intros _. exists c. split; [done|].
        destruct (decide (userId = KNaN)) as [|Hnan]; [by left|right].
        by apply enrolled_false.
      * intros c0 _ [= <-].
        rewrite LocalFacts.courseList_saveCourses. simpl.
        rewrite (find_insert_same _ _ _ _
                   (with_students c
                      (Some (default [] (students c) ++ [(userId, now)])))
                   Hf eq_refl).
        simpl. eauto.
  - split_and!; try done. split; [done|]. by intros (c0 & ? & _).
Qed.

Lemma enrollUser_appends_witness :
  let st := Local.init (Local.Catalog Local.seed) true [] in
  let now := "2024-05-01T10:00:00.000Z" in
  let r := Local.enrollUser st (KNum 7) (KNum 2) now in
  r.2 = true ∧
  getCourse (Local.courseList st) (KNum 2) = Some Local.graphic_design ∧
  ∃ c', getCourse (Local.courseList r.1) (KNum 2) = Some c' ∧
        students c' = Some ([] ++ [(KNum 7, now)]).
Proof.
  assert ((Local.enrollUser (Local.init (Local.Catalog Local.seed) true [])
             (KNum 7) (KNum 2) "2024-05-01T10:00:00.000Z").2 = true) as H
    by (vm_compute; reflexivity).
  assert (getCourse
            (Local.courseList (Local.init (Local.Catalog Local.seed) true []))
            (KNum 2) = Some Local.graphic_design) as Hc
    by (vm_compute; reflexivity).
  split; [exact H|]. split; [exact Hc|].
  destruct (enrollUser_appends (Local.init (Local.Catalog Local.seed) true [])
              (KNum 7) (KNum 2) "2024-05-01T10:00:00.000Z") as (_ & Happ & _).
  exact (Happ _ H Hc).
Defined.

Lemma getCourse_find (cl : list Course) (cid : key) (c : Course) :
  getCourse cl cid = Some c ↔
  ∃ idx, list_find (λ c, KNum (id c) = cid) cl = Some (idx, c).
Proof.
  unfold getCourse. destruct (list_find _ cl) as [[i c0]|]; simpl; split.
  - intros [= ->]. eauto.
  - by intros (idx & [= _ ->]).
  - done.
  - by intros (idx & ?).
Qed.

(** X7: [incrementVisits] returns [null] and changes nothing when the
    course is absent; on a course that is present, with a count that is a
    safe integer with room for two more, it returns the previous count (0
    when there was none) plus one, [getCourse] then shows that count with
    the students untouched, and the next call returns one more. *)
Theorem incrementVisits_counts (st : Local.State) (courseId : key) :
  (getCourse (Local.courseList st) courseId = None →
     Local.incrementVisits st courseId = (st, None)) ∧
  (∀ c, getCourse (Local.courseList st) courseId = Some c →
     - 2 ^ 53 < default 0 (visits c) →
     default 0 (visits c) + 2 ≤ 2 ^ 53 →
     let r := Local.incrementVisits st courseId in
     r.2 = Some (default 0 (visits c) + 1) ∧
     visits <$> getCourse (Local.courseList r.1) courseId
     = Some (Some (default 0 (visits c) + 1)) ∧
     students <$> getCourse (Local.courseList r.1) courseId
     = Some (students c) ∧
     (Local.incrementVisits r.1 courseId).2
     = Some (default 0 (visits c) + 2)).
Proof.
  split.
  - unfold getCourse, Local.incrementVisits, visit.
    by destruct (list_find _ (Local.courseList st)) as [[i c]|].
  - intros c (idx & Hf)%getCourse_find Hlo Hhi r. subst r.
    assert (js_add (num_or (visits c) 0) 1 = default 0 (visits c) + 1) as E1
      by (rewrite num_or_default; apply js_add_exact; lia).
    pose proof (find_insert_same _ _ _ _
                  (with_visits c (Some (default 0 (visits c) + 1)))
                  Hf eq_refl) as Hf'.
    unfold Local.incrementVisits, visit. rewrite Hf. cbn [fst snd].
    rewrite E1, LocalFacts.courseList_saveCourses.
    cbn [Local.courseList Local.set_courseList].
    unfold getCourse. rewrite Hf'. cbn [fst snd fmap option_fmap option_map].
    split_and!; try done.
    cbn [visits with_visits]. rewrite num_or_default. cbn [default].
    change (Datatypes.id (default 0 (visits c) + 1))
      with (default 0 (visits c) + 1).
    f_equal. rewrite js_add_exact by lia. lia.
Qed.

Lemma incrementVisits_counts_witness :
  let st := Local.init (Local.Catalog Local.seed) true [] in
  let c := Local.graphic_design in
  getCourse (Local.courseList st) (KNum 2) = Some c ∧
  - 2 ^ 53 < default 0 (visits c) ∧
  default 0 (visits c) + 2 ≤ 2 ^ 53 ∧
  (Local.incrementVisits st (KNum 2)).2 = Some 1 ∧
  (Local.incrementVisits (Local.incrementVisits st (KNum 2)).1 (KNum 2)).2
  = Some 2.
Proof.
  assert (getCourse
            (Local.courseList (Local.init (Local.Catalog Local.seed) true []))
            (KNum 2) = Some Local.graphic_design) as H
    by (vm_compute; reflexivity).
  assert (- 2 ^ 53 < default 0 (visits Local.graphic_design)) as Hlo
    by (simpl; lia).
  assert (default 0 (visits Local.graphic_design) + 2 ≤ 2 ^ 53) as Hhi
    by (simpl; lia).
  split; [exact H|]. split; [exact Hlo|]. split; [exact Hhi|].
  destruct (incrementVisits_counts
              (Local.init (Local.Catalog Local.seed) true []) (KNum 2))
    as (_ & Hc).
  destruct (Hc _ H Hlo Hhi) as (H1 & _ & _ & H2).
  split; [exact H1 | exact H2].
Defined.

(** Beyond the safe integers the count stops: at 2^53 visits
    [incrementVisits] returns 2^53 again. *)
Lemma incrementVisits_stalls_at_2_53 :
  let st := Local.init
              (Local.Catalog [sample_course 1 "A" 0 (2 ^ 53)]) true [] in
  (Local.incrementVisits st (KNum 1)).2 = Some (2 ^ 53).
Proof. vm_compute. reflexivity. Qed.

(** ** Editing *)

Lemma ids_insert_same (cl : list Course) (idx : nat) (c c' : Course) :
  cl !! idx = Some c → id c' = id c →
  id <$> <[idx := c']> cl = id <$> cl.
Proof.
  intros Hl Hid. rewrite list_fmap_insert, Hid.
  apply list_insert_id. by rewrite list_lookup_fmap, Hl.
Qed.

(** X8: [editCourse] on an id no course has returns [null] and changes
    nothing.  On a course that is found it replaces that one record and no
    other; students and visits are kept unless the patch names them; and
    when the patch has no [id] the ids of the catalog stay as they are and
    [getCourse] returns the edited record for the same id. *)
Theorem editCourse_frame (st : Local.State) (cid : key)
    (data : PartialCourse) :
  (getCourse (Local.courseList st) cid = None →
     Local.editCourse st cid data = (st, Normal None)) ∧
  (∀ st' c',
     Local.editCourse st cid data = (st', Normal (Some c')) →
     ∃ idx c,
       Local.courseList st !! idx = Some c ∧ KNum (id c) = cid ∧
       Local.courseList st' = <[idx := c']> (Local.courseList st) ∧
       (p_students data = None → students c' = students c) ∧
       (p_visits data = None → visits c' = visits c) ∧
       (p_id data = None →
          id <$> Local.courseList st' = id <$> Local.courseList st ∧
          getCourse (Local.courseList st') cid = Some c')).
Proof.
  split.
  - unfold getCourse, Local.editCourse, edit.
    by destruct (list_find _ (Local.courseList st)) as [[i c]|].
  - intros st' c'. unfold Local.editCourse, edit.
    destruct (list_find _ (Local.courseList st)) as [[idx c]|] eqn:Hf;
      [|done].
    destruct (union_categories _ _) as [cats|]; [|done].
    intros [= <- <-]. exists idx, c.
    pose proof Hf as (Hl & Hp & _)%list_find_Some.
    rewrite LocalFacts.courseList_saveCourses. simpl.
    split_and!; try done.
    + by intros ->.
    + by intros ->.
    + intros Hid.
      assert (id (merge c (with_categories data cats)) = id c) as Hsame
        by (simpl; by rewrite Hid).
      split.
      * by apply (ids_insert_same _ _ c).
      * unfold getCourse.
        by rewrite (find_insert_same _ _ _ _ _ Hf Hsame).
Qed.

Lemma editCourse_frame_witness :
  let st := Local.init (Local.Catalog Local.seed) true [] in
  getCourse (Local.courseList st) (KNum 9) = None ∧
  Local.editCourse st (KNum 9) (titled "Renamed") = (st, Normal None).
Proof.
  assert (getCourse
            (Local.courseList (Local.init (Local.Catalog Local.seed) true []))
            (KNum 9) = None) as H by (vm_compute; reflexivity).
  split; [exact H|].
  destruct (editCourse_frame (Local.init (Local.Catalog Local.seed) true [])
              (KNum 9) (titled "Renamed")) as (Hnone & _).
  exact (Hnone H).
Defined.

(** ** Ids are numbers *)

Lemma find_string_id (cl : list Course) (s : string) :
  list_find (λ c, KNum (id c) = KStr s) cl = None.
Proof. apply find_none_iff. apply Forall_forall. by intros c _. Qed.

(** X9: every lookup by id is type-sensitive.  Given an id as a string,
    whatever courses exist, [getCourse] returns [null], [deleteCourse] and
    [courseDeletion] return [false], [editCourse] and [incrementVisits]
    return [null], [enrollUser] returns [false], and the state is left as it
    was. *)
Theorem string_id_never_matches (st : Local.State) (s : string) :
  getCourse (Local.courseList st) (KStr s) = None ∧
  Local.deleteCourse st (KStr s) = (st, false) ∧
  Local.courseDeletion st (KStr s) = (st, false) ∧
  (∀ data, Local.editCourse st (KStr s) data = (st, Normal None)) ∧
  Local.incrementVisits st (KStr s) = (st, None) ∧
  (∀ userId now, Local.enrollUser st userId (KStr s) now = (st, false)).
Proof.
  unfold getCourse, Local.courseDeletion, Local.deleteCourse, _findCourseIndex,
    Local.editCourse, edit, Local.incrementVisits, visit,
    Local.enrollUser, enroll.
  rewrite !find_string_id. simpl. split_and!; try done.
Qed.

(** ** Sessions on the local-storage variant *)

Lemma step_cases (st : Local.State) (op : Local.Op) :
  Local.step st op = st ∨
  ∃ cl dir tr,
    Local.step st op
    = {| Local.courseList := cl;
         Local.localStorage :=
           (if Local.writable st then Local.Catalog cl
            else Local.localStorage st);
         Local.writable := Local.writable st;
         Local.users := dir; Local.trace := tr |}.
Proof.
  assert (∀ cl, Local.saveCourses (Local.set_courseList st cl)
              = {| Local.courseList := cl;
                   Local.localStorage :=
                     (if Local.writable st then Local.Catalog cl
                      else Local.localStorage st);
                   Local.writable := Local.writable st;
                   Local.users := Local.users st;
                   Local.trace := Local.trace st |}) as Hsave.
  { intros cl.
    unfold Local.saveCourses, Local.set_localStorage, Local.set_courseList.
    simpl. by destruct (Local.writable st). }
  destruct op as [arg|cid data|u cid now|cid|cid|cid]; simpl.
  - unfold Local.createCourse.
    destruct (has_title arg); simpl; [|by left].
    right. rewrite Hsave. eauto.
  - unfold Local.editCourse.
    destruct (edit _ cid data) as [[[cl c]|]|]; simpl; [|by left..].
    right. rewrite Hsave. eauto.
  - unfold Local.enrollUser.
    destruct (enroll _ u cid now) as [cl|]; simpl; [|by left].
    right. rewrite Hsave. eauto.
  - unfold Local.incrementVisits.
    destruct (visit _ cid) as [[cl v]|]; simpl; [|by left].
    right. rewrite Hsave. eauto.
  - unfold Local.deleteCourse.
    destruct (_findCourseIndex _ cid); simpl; [|by left].
    right. rewrite Hsave. eauto.
  - unfold Local.courseDeletion, Local.deleteCourse.
    destruct (_findCourseIndex _ cid); simpl; [|by left].
    destruct (cascade _ _ _) as [dir tr]. rewrite Hsave. simpl.
    right. eauto.
Qed.

Lemma session_step_reload (st : Local.State) (c : Session.Call) :
  Local.writable st = true →
  Session.reload_agrees st →
  Local.writable (Session.step st c) = true ∧
  Session.reload_agrees (Session.step st c).
Proof.
  intros Hw Hr. destruct c as [op|]; simpl.
  - destruct (step_cases st op) as [->|(cl & dir & tr & ->)]; [done|].
    rewrite Hw. by split.
  - by split.
Qed.

(** X10: with a store that accepts writes, every operation writes the
    catalog through: from the moment the module is loaded and after any
    sequence of calls (the operations and [resetAllCourses]), loading the
    module again would start from exactly the catalog in memory.  The
    serialization itself is taken to be lossless. *)
Theorem session_reload_agrees (s : Local.stored) (dir : list User)
    (calls : list Session.Call) :
  Session.reload_agrees (Session.run (Local.init s true dir) calls).
Proof.
  unfold Session.run.
  assert (Local.writable (Local.init s true dir) = true ∧
          Session.reload_agrees (Local.init s true dir)) as H by done.
  revert H. generalize (Local.init s true dir).
  induction calls as [|c calls IH]; intros st [Hw Hr]; simpl; [done|].
  apply IH. by apply session_step_reload.
Qed.

(** X11: a refused write is swallowed.  Whether or not the store accepts
    writes, a call leaves the same catalog in memory, the same directory and
    the same trace; and when the store refuses them, an operation leaves the
    persisted copy exactly as it was. *)
Theorem storage_failure_is_silent (st : Local.State) (w : bool) :
  (∀ c,
     Local.courseList (Session.step (Session.set_writable st w) c)
     = Local.courseList (Session.step st c) ∧
     Local.users (Session.step (Session.set_writable st w) c)
     = Local.users (Session.step st c) ∧
     Local.trace (Session.step (Session.set_writable st w) c)
     = Local.trace (Session.step st c)) ∧
  (∀ op,
     Local.localStorage (Local.step (Session.set_writable st false) op)
     = Local.localStorage st).
Proof.
  split.
  - intros [op|]; [|done]. simpl.
    destruct op as [arg|cid data|u cid now|cid|cid|cid]; simpl.
    + unfold Local.createCourse. destruct (has_title arg); simpl; [|done].
      by rewrite !LocalFacts.courseList_saveCourses,
           !LocalFacts.users_saveCourses, !LocalFacts.trace_saveCourses.
    + unfold Local.editCourse. simpl.
      destruct (edit _ cid data) as [[[cl c]|]|]; simpl; [|done..].
      by rewrite !LocalFacts.courseList_saveCourses,
           !LocalFacts.users_saveCourses, !LocalFacts.trace_saveCourses.
    + unfold Local.enrollUser. simpl.
      destruct (enroll _ u cid now) as [cl|]; simpl; [|done].
      by rewrite !LocalFacts.courseList_saveCourses,
           !LocalFacts.users_saveCourses, !LocalFacts.trace_saveCourses.
    + unfold Local.incrementVisits. simpl.
      destruct (visit _ cid) as [[cl v]|]; simpl; [|done].
      by rewrite !LocalFacts.courseList_saveCourses,
           !LocalFacts.users_saveCourses, !LocalFacts.trace_saveCourses.
    + unfold Local.deleteCourse. simpl.
      destruct (_findCourseIndex _ cid); simpl; [|done].
      by rewrite !LocalFacts.courseList_saveCourses,
           !LocalFacts.users_saveCourses, !LocalFacts.trace_saveCourses.
    + unfold Local.courseDeletion, Local.deleteCourse. simpl.
      destruct (_findCourseIndex _ cid); simpl; [|done].
      rewrite !LocalFacts.users_saveCourses, !LocalFacts.trace_saveCourses.
      simpl. destruct (cascade _ _ _) as [dir tr]. simpl.
      by rewrite !LocalFacts.courseList_saveCourses.
  - intros op.
    destruct (step_cases (Session.set_writable st false) op)
      as [->|(cl & dir & tr & ->)]; done.
Qed.

Lemma enroll_ids (cl cl' : list Course) (userId cid : key) (now : string) :
  enroll cl userId cid now = Some cl' → id <$> cl' = id <$> cl.
Proof.
  unfold enroll.
  destruct (list_find _ cl) as [[idx c]|] eqn:Hf; [|done].
  destruct (enrolled _ _); [done|]. intros [= <-].
  apply list_find_Some in Hf as (Hl & _). by apply (ids_insert_same _ _ c).
Qed.

Lemma visit_ids (cl cl' : list Course) (cid : key) (v : Z) :
  visit cl cid = Some (cl', v) → id <$> cl' = id <$> cl.
Proof.
  unfold visit.
  destruct (list_find _ cl) as [[idx c]|] eqn:Hf; [|done].
  intros [= <- _].
  apply list_find_Some in Hf as (Hl & _). by apply (ids_insert_same _ _ c).
Qed.

Lemma edit_ids (cl cl' : list Course) (cid : key) (data : PartialCourse)
    (c' : Course) :
  edit cl cid data = Normal (Some (cl', c')) →
  p_id data = None → id <$> cl' = id <$> cl.
Proof.
  unfold edit. intros E Hid.
  destruct (list_find _ cl) as [[idx c]|] eqn:Hf; [|done].
  destruct (union_categories _ _) as [cats|]; [|done].
  injection E as <- _.
  apply list_find_Some in Hf as (Hl & _).
  apply (ids_insert_same _ _ c); [done|]. simpl. by rewrite Hid.
Qed.

Lemma delete_ids_NoDup (cl : list Course) (idx : nat) :
  NoDup (id <$> cl) → NoDup (id <$> delete idx cl).
Proof.
  rewrite list_fmap_delete. intros Hnd.
  eapply sublist_NoDup; [exact Hnd|]. apply sublist_delete.
Qed.

Lemma ids_in_range_le (cl : list Course) (room room' : nat) :
  (room' ≤ room)%nat → ids_in_range cl room → ids_in_range cl room'.
Proof.
  intros Hle [Hroom Hall]. split; [lia|].
  eapply Forall_impl; [exact Hall|]. simpl. intros c. lia.
Qed.

Lemma ids_in_range_same_ids (cl cl' : list Course) (room : nat) :
  id <$> cl' = id <$> cl → ids_in_range cl room → ids_in_range cl' room.
Proof.
  intros Hids [Hroom Hall]. split; [done|].
  apply (Forall_fmap id (λ n, - 2 ^ 53 < n ∧ n + Z.of_nat room ≤ 2 ^ 53)).
  rewrite Hids.
  by apply (Forall_fmap id (λ n, - 2 ^ 53 < n ∧ n + Z.of_nat room ≤ 2 ^ 53)).
Qed.

Lemma ids_in_range_delete (cl : list Course) (idx room : nat) :
  ids_in_range cl room → ids_in_range (delete idx cl) room.
Proof. intros [Hroom Hall]. split; [done|]. by apply Forall_delete. Qed.

Lemma ids_in_range_nil (room : nat) :
  Z.of_nat room ≤ 2 ^ 53 → ids_in_range [] room.
Proof. intros H. split; [done|constructor]. Qed.

(** One call uses up at most one unit of the room below 2^53. *)
Lemma session_step_range (st : Local.State) (c : Session.Call) (room : nat) :
  Session.keeps_id c →
  ids_in_range (Local.courseList st) (S room) →
  ids_in_range (Local.courseList (Session.step st c)) room.
Proof.
  intros Hk Hr.
  assert (ids_in_range (Local.courseList st) room) as Hr'
    by (apply (ids_in_range_le _ (S room)); [lia|done]).
  destruct c as [op|]; simpl;
    [|apply ids_in_range_nil; destruct Hr as [Hroom _]; lia].
  destruct op as [arg|cid data|u cid now|cid|cid|cid]; simpl.
  - unfold Local.createCourse.
    destruct (has_title arg) as [course|]; simpl; [|done].
    rewrite LocalFacts.courseList_saveCourses. simpl.
    by apply ids_in_range_grow.
  - unfold Local.editCourse.
    destruct (edit _ cid data) as [[[cl c]|]|] eqn:E; simpl; [|done..].
    rewrite LocalFacts.courseList_saveCourses. simpl.
    by apply (ids_in_range_same_ids _ _ _ (edit_ids _ _ _ _ _ E Hk)).
  - unfold Local.enrollUser.
    destruct (enroll _ u cid now) as [cl|] eqn:E; simpl; [|done].
    rewrite LocalFacts.courseList_saveCourses. simpl.
    by apply (ids_in_range_same_ids _ _ _ (enroll_ids _ _ _ _ _ E)).
  - unfold Local.incrementVisits.
    destruct (visit _ cid) as [[cl v]|] eqn:E; simpl; [|done].
    rewrite LocalFacts.courseList_saveCourses. simpl.
    by apply (ids_in_range_same_ids _ _ _ (visit_ids _ _ _ _ E)).
  - unfold Local.deleteCourse.
    destruct (_findCourseIndex _ cid) as [idx|]; simpl; [|done].
    rewrite LocalFacts.courseList_saveCourses. simpl.
    by apply ids_in_range_delete.
  - unfold Local.courseDeletion, Local.deleteCourse.
    destruct (_findCourseIndex _ cid) as [idx|]; simpl; [|done].
    destruct (cascade _ _ _) as [dir tr]. simpl.
    rewrite LocalFacts.courseList_saveCourses. simpl.
    by apply ids_in_range_delete.
Qed.

Lemma session_step_ids (st : Local.State) (c : Session.Call) :
  Session.keeps_id c →
  ids_safe (Local.courseList st) →
  NoDup (id <$> Local.courseList st) →
  NoDup (id <$> Local.courseList (Session.step st c)).
Proof.
  intros Hk Hsafe Hnd. destruct c as [op|]; simpl; [|constructor].
  destruct op as [arg|cid data|u cid now|cid|cid|cid]; simpl.
  - unfold Local.createCourse.
    destruct (has_title arg) as [course|]; simpl; [|done].
    rewrite LocalFacts.courseList_saveCourses. simpl.
    rewrite fmap_app. apply NoDup_app. split_and!; [done| |apply NoDup_singleton].
    intros x Hx Hx'. apply list_elem_of_singleton in Hx'. simpl in Hx'.
    subst x.
    by apply (fresh_not_elem _ _ (generate_fresh (Local.courseList st) Hsafe)).
  - unfold Local.editCourse.
    destruct (edit _ cid data) as [[[cl c]|]|] eqn:E; simpl; [|done..].
    rewrite LocalFacts.courseList_saveCourses. simpl.
    by rewrite (edit_ids _ _ _ _ _ E Hk).
  - unfold Local.enrollUser.
    destruct (enroll _ u cid now) as [cl|] eqn:E; simpl; [|done].
    rewrite LocalFacts.courseList_saveCourses. simpl.
    by rewrite (enroll_ids _ _ _ _ _ E).
  - unfold Local.incrementVisits.
    destruct (visit _ cid) as [[cl v]|] eqn:E; simpl; [|done].
    rewrite LocalFacts.courseList_saveCourses. simpl.
    by rewrite (visit_ids _ _ _ _ E).
  - unfold Local.deleteCourse.
    destruct (_findCourseIndex _ cid) as [idx|]; simpl; [|done].
    rewrite LocalFacts.courseList_saveCourses. simpl.
    by apply delete_ids_NoDup.
  - unfold Local.courseDeletion, Local.deleteCourse.
    destruct (_findCourseIndex _ cid) as [idx|]; simpl; [|done].
    destruct (cascade _ _ _) as [dir tr]. simpl.
    rewrite LocalFacts.courseList_saveCourses. simpl.
    by apply delete_ids_NoDup.
Qed.

(** X12: ids stay unique.  If no two courses share an id and every id is a
    safe integer with room below 2^53 for one new id per call, then after
    any sequence of calls (createCourse, editCourse, enrollUser,
    incrementVisits, deleteCourse, courseDeletion, resetAllCourses) in
    which no [editCourse] patch has an [id] property, still no two courses
    share an id. *)
Theorem session_ids_unique (st : Local.State) (calls : list Session.Call) :
  Forall Session.keeps_id calls →
  ids_in_range (Local.courseList st) (length calls) →
  NoDup (id <$> Local.courseList st) →
  NoDup (id <$> Local.courseList (Session.run st calls)).
Proof.
  unfold Session.run. intros Hk. revert st.
  induction Hk as [|c calls Hc _ IH]; intros st Hr Hnd; simpl; [done|].
  simpl in Hr. apply IH.
  - by apply session_step_range.
  - apply session_step_ids; [done| |done]. by apply (ids_in_range_safe _ _ Hr).
Qed.

Lemma session_ids_unique_witness :
  let st := Local.init (Local.Catalog Local.seed) true sample_users in
  let calls :=
    [ Session.Do (Local.OpCreate (Some (titled "Algebra")));
      Session.Do (Local.OpDelete (KNum 3));
      Session.Do (Local.OpCreate (Some (titled "Botany")));
      Session.Do (Local.OpEdit (KNum 1) (titled "Renamed"));
      Session.Reset;
      Session.Do (Local.OpCreate (Some (titled "Chemistry"))) ] in
  Forall Session.keeps_id calls ∧
  ids_in_range (Local.courseList st) (length calls) ∧
  NoDup (id <$> Local.courseList st) ∧
  NoDup (id <$> Local.courseList (Session.run st calls)).
Proof.
  assert (Forall Session.keeps_id
            [ Session.Do (Local.OpCreate (Some (titled "Algebra")));
              Session.Do (Local.OpDelete (KNum 3));
              Session.Do (Local.OpCreate (Some (titled "Botany")));
              Session.Do (Local.OpEdit (KNum 1) (titled "Renamed"));
              Session.Reset;
              Session.Do (Local.OpCreate (Some (titled "Chemistry"))) ])
    as Hk by (repeat constructor).
  assert (ids_in_range
            (Local.courseList
               (Local.init (Local.Catalog Local.seed) true sample_users)) 6)
    as Hr by (split; [simpl; lia|]; repeat constructor; simpl; lia).
  assert (NoDup (id <$> Local.courseList
                          (Local.init (Local.Catalog Local.seed) true
                             sample_users))) as Hnd
    by (apply (bool_decide_unpack _); vm_compute; exact I).
  split; [exact Hk|]. split; [exact Hr|]. split; [exact Hnd|].
  exact (session_ids_unique _ _ Hk Hr Hnd).
Defined.

(** Without the room the ids collide: from one course with id 2^53 a
    [createCourse] yields a second course with id 2^53. *)
Lemma session_ids_collide_at_2_53 :
  let st := Local.init
              (Local.Catalog [sample_course (2 ^ 53) "A" 0 0]) true [] in
  id <$> Local.courseList
           (Session.run st
              [Session.Do (Local.OpCreate (Some (titled "B")))])
  = [2 ^ 53; 2 ^ 53].
Proof. vm_compute. reflexivity. Qed.

(** X13: under unique ids a cascading deletion cannot be repeated: called
    again with the same id, [courseDeletion] returns [false] and changes
    nothing, in particular no user is updated a second time. *)
Theorem courseDeletion_repeat (st : Local.State) (courseId : key) :
  NoDup (id <$> Local.courseList st) →
  let st1 := (Local.courseDeletion st courseId).1 in
  Local.courseDeletion st1 courseId = (st1, false).
Proof.
  intros Hnd st1. subst st1.
  destruct (Local.courseDeletion st courseId) as [st1 b] eqn:E. simpl.
  unfold Local.courseDeletion, Local.deleteCourse in E.
  destruct (_findCourseIndex (Local.courseList st) courseId) as [idx|] eqn:Hidx.
  - destruct (cascade _ _ _) as [dir tr]. injection E as <- _.
    pose proof (delete_found_absent _ _ _ Hidx Hnd) as Habs.
    apply findCourseIndex_getCourse in Habs.
    unfold Local.courseDeletion, Local.deleteCourse. simpl.
    rewrite LocalFacts.courseList_saveCourses. simpl. by rewrite Habs.
  - injection E as <- _.
    unfold Local.courseDeletion, Local.deleteCourse. by rewrite Hidx.
Qed.

Lemma courseDeletion_repeat_witness :
  let st := Local.init (Local.Catalog Local.seed) true sample_users in
  let st1 := (Local.courseDeletion st (KNum 1)).1 in
  NoDup (id <$> Local.courseList st) ∧
  Local.courseDeletion st1 (KNum 1) = (st1, false).
Proof.
  assert (NoDup (id <$> Local.courseList
                          (Local.init (Local.Catalog Local.seed) true
                             sample_users))) as Hnd
    by (apply (bool_decide_unpack _); vm_compute; exact I).
  split; [exact Hnd|].
  exact (courseDeletion_repeat _ (KNum 1) Hnd).
Defined.

(** ** Search by category *)

Lemma filter_with_typed (cl : list Course) (s : string) :
  s ≠ "" →
  categories_typed cl →
  filter_with (λ c, categories_include (categories c) s) cl
  = Normal (filter (λ c, s ∈ as_array (categories c)) cl).
Proof.
  intros Hs Ht. induction Ht as [|c cl Hc _ IH]; simpl; [done|].
  rewrite IH, filter_cons. unfold categories_include.
  destruct Hc as [Hf|(l & Hl)].
  - rewrite Hf. rewrite decide_False; [done|].
    destruct (categories c); simpl in *; try done; apply not_elem_of_nil.
  - rewrite Hl. simpl.
    destruct (decide (s ∈ l)) as [Hin|Hin].
    + by rewrite bool_decide_eq_true_2.
    + by rewrite bool_decide_eq_false_2.
Qed.

(** X14: [searchCoursesByCategory] returns the empty list for an empty
    string and for anything that is not a string.  For a non-empty label, on
    a catalog whose categories are arrays (or missing), it returns exactly
    the courses whose array holds the label, in catalog order; a course
    without categories is never returned. *)
Theorem searchCoursesByCategory_spec (cl : list Course) :
  (∀ v, (∀ s, v ≠ JStr s) → searchCoursesByCategory cl v = Normal []) ∧
  searchCoursesByCategory cl (JStr "") = Normal [] ∧
  (∀ s, s ≠ "" → categories_typed cl →
     ∃ found,
       searchCoursesByCategory cl (JStr s) = Normal found ∧
       found = filter (λ c, s ∈ as_array (categories c)) cl ∧
       found `sublist_of` cl ∧
       (∀ c, c ∈ found ↔ c ∈ cl ∧ ∃ l, categories c = JArr l ∧ s ∈ l)).
Proof.
  split_and!.
  - intros v Hv. destruct v; try done. by destruct (Hv s).
  - done.
  - intros s Hs Ht.
    exists (filter (λ c, s ∈ as_array (categories c)) cl). split_and!.
    + unfold searchCoursesByCategory.
      destruct (String.eqb_spec s ""); [done|]. by apply filter_with_typed.
    + done.
    + apply sublist_filter.
    + intros c. rewrite list_elem_of_filter. split.
      * intros [Hin Hc]. split; [done|].
        destruct (categories c); simpl in Hin;
          try (by apply not_elem_of_nil in Hin). eauto.
      * intros [Hc (l & Hl & Hin)]. split; [|done]. by rewrite Hl.
Qed.

Lemma searchCoursesByCategory_spec_witness :
  let cl := Local.seed in
  "design" ≠ "" ∧ categories_typed cl ∧
  searchCoursesByCategory cl (JStr "design") = Normal [Local.graphic_design].
Proof.
  assert ("design" ≠ "") as Hs by discriminate.
  assert (categories_typed Local.seed) as Ht
    by (apply Forall_cons_2; [right; eexists; reflexivity|];
        apply Forall_cons_2; [right; eexists; reflexivity|];
        apply Forall_nil_2).
  split; [exact Hs|]. split; [exact Ht|].
  destruct (searchCoursesByCategory_spec Local.seed) as (_ & _ & H).
  destruct (H "design" Hs Ht) as (found & -> & -> & _).
  vm_compute. reflexivity.
Defined.

(** ** Reset *)

(** X15: after [resetAllCourses] the catalog is empty and the persisted
    copy is erased, whatever they held; loading the module again starts from
    an empty catalog (the seed does not come back), no id is found any more,
    and the next course created gets id 1. *)
Theorem resetAllCourses_restarts (st : Local.State) :
  let st' := Local.resetAllCourses st in
  Local.listCourses st' = [] ∧
  Local.localStorage st' = Local.NoItem ∧
  Local.initial_courseList (Local.localStorage st') = [] ∧
  (∀ cid, getCourse (Local.courseList st') cid = None) ∧
  (∀ arg course, has_title arg = Some course →
     (Local.createCourse st' arg).2 = Some (newCourse course 1)) ∧
  Local.users st' = Local.users st.
Proof.
  simpl. split_and!; try done.
  intros arg course H. unfold Local.createCourse. by rewrite H.
Qed.

Lemma resetAllCourses_restarts_witness :
  let st := Local.init (Local.Catalog Local.seed) true [] in
  let arg := Some (titled "Algebra") in
  has_title arg = Some (titled "Algebra") ∧
  (Local.createCourse (Local.resetAllCourses st) arg).2
  = Some (newCourse (titled "Algebra") 1).
Proof.
  split; [reflexivity|].
  destruct (resetAllCourses_restarts
              (Local.init (Local.Catalog Local.seed) true []))
    as (_ & _ & _ & _ & H & _).
  exact (H (Some (titled "Algebra")) (titled "Algebra") eq_refl).
Defined.

(** ** The top three *)

Lemma sorted_app_le {A} (key : A → Z) (l1 l2 : list A) :
  StronglySorted (λ a b, key b ≤ key a) (l1 ++ l2) →
  ∀ a b, a ∈ l1 → b ∈ l2 → key b ≤ key a.
Proof.
  induction l1 as [|x l1 IH]; simpl; intros Hs a b Ha Hb.
  - by apply not_elem_of_nil in Ha.
  - apply StronglySorted_inv in Hs as [Hs Hx].
    apply elem_of_cons in Ha as [->|Ha]; [|by eapply IH].
    rewrite Forall_forall in Hx. apply Hx. apply elem_of_app. by right.
Qed.

Lemma top_three {A} (key : A → Z) (l : list A) :
  let top := take 3 (sort (descending key) l) in
  length top = Nat.min 3 (length l) ∧
  ∃ rest, top ++ rest ≡ₚ l ∧
          ∀ a b, a ∈ top → b ∈ rest → key b ≤ key a.
Proof.
  simpl. split.
  - by rewrite length_take, (Permutation_length (sort_perm key l)).
  - exists (drop 3 (sort (descending key) l)). split.
    + rewrite take_drop. apply sort_perm.
    + apply sorted_app_le. rewrite take_drop. apply sort_sorted.
Qed.

(** X16: [topCourses] holds three courses, or all of them when the catalog
    has fewer; together with the courses left out it makes up the catalog,
    and no course left out has a longer student list than a course listed
    (a course without a list counting as 0).  The same holds for
    [topVisited] and the [visits] field (0 when absent). *)
Theorem getAnalytics_top_three (cl : list Course) :
  let a := getAnalytics cl in
  (length (topCourses a) = Nat.min 3 (length cl) ∧
   ∃ rest, topCourses a ++ rest ≡ₚ cl ∧
     ∀ c c', c ∈ topCourses a → c' ∈ rest →
       (length (default [] (students c'))
        ≤ length (default [] (students c)))%nat) ∧
  (length (topVisited a) = Nat.min 3 (length cl) ∧
   ∃ rest, topVisited a ++ rest ≡ₚ cl ∧
     ∀ c c', c ∈ topVisited a → c' ∈ rest →
       default 0 (visits c') ≤ default 0 (visits c)).
Proof.
  simpl. split.
  - rewrite sort_enrollments.
    destruct (top_three (λ c, Z.of_nat (length (default [] (students c)))) cl)
      as (Hlen & rest & Hperm & Hle).
    split; [exact Hlen|]. exists rest. split; [exact Hperm|].
    intros c c' Hc Hc'. specialize (Hle c c' Hc Hc'). simpl in Hle. lia.
  - rewrite sort_visited.
    exact (top_three (λ c, default 0 (visits c)) cl).
Qed.

(** On four courses given out of rank order (B: 1 student, 9 visits; A: 3
    and 5; C: 1 and 7; D: 2 and 9) the course left out of [topCourses] is C,
    the one left out of [topVisited] is A. *)
Lemma getAnalytics_top_three_example :
  let A := sample_course 1 "A" 3 5 in
  let B := sample_course 2 "B" 1 9 in
  let C := sample_course 3 "C" 1 7 in
  let D := sample_course 4 "D" 2 9 in
  getAnalytics [B; A; C; D]
  = {| totalCourses := 4; totalEnrollments := 7;
       topCourses := [A; D; B]; topVisited := [B; D; C] |}.
Proof. vm_compute. reflexivity. Qed.

(** ** Requests of the remote-backed variant *)

(** X17: what each operation of the remote-backed variant sends.
    [editCourse], [enrollUser] and [incrementVisits] send nothing;
    [deleteCourse] sends one DELETE when the id is in the local catalog and
    nothing otherwise; [createCourse] sends nothing without a title, and
    otherwise one POST carrying the new record, preceded by one GET exactly
    when the local catalog is empty; [listCourses] sends one GET exactly when
    the local catalog is empty. *)
Theorem remote_requests (st : Remote.State) :
  (∀ cid data,
     Remote.trace (Remote.editCourse st cid data).1 = Remote.trace st) ∧
  (∀ userId cid now,
     Remote.trace (Remote.enrollUser st userId cid now).1 = Remote.trace st) ∧
  (∀ cid, Remote.trace (Remote.incrementVisits st cid).1 = Remote.trace st) ∧
  (∀ cid rdel,
     Remote.trace (Remote.deleteCourse st cid rdel).1
     = Remote.trace st ++
       match getCourse (Remote.courseList st) cid with
       | Some _ => [FetchDelete cid]
       | None => []
       end) ∧
  (∀ arg rget radd,
     Remote.trace (Remote.createCourse st arg rget radd).1
     = Remote.trace st ++
       match has_title arg with
       | None => []
       | Some course =>
           match Remote.courseList st with
           | [] => [FetchCourses]
           | _ :: _ => []
           end ++
           [FetchAdd (newCourse course
                        (_generateUniqueCourseId (Remote.refreshed st rget)))]
       end) ∧
  (∀ rget,
     Remote.trace (Remote.listCourses st rget).1
     = Remote.trace st ++
       match Remote.courseList st with
       | [] => [FetchCourses]
       | _ :: _ => []
       end).
Proof.
  split_and!.
  - intros cid data. unfold Remote.editCourse.
    by destruct (edit _ cid data) as [[[cl c]|]|].
  - intros userId cid now. unfold Remote.enrollUser.
    by destruct (enroll _ userId cid now).
  - intros cid. unfold Remote.incrementVisits.
    by destruct (visit _ cid) as [[cl v]|].
  - intros cid rdel. unfold Remote.deleteCourse, _findCourseIndex, getCourse.
    destruct (list_find _ (Remote.courseList st)) as [[i c]|]; simpl.
    + by destruct rdel.
    + by rewrite app_nil_r.
  - intros arg rget radd. unfold Remote.createCourse.
    destruct (has_title arg) as [course|]; simpl; [|by rewrite app_nil_r].
    pose proof (RemoteFacts.createCourse_refresh st rget) as Href.
    destruct (Remote.courseList st) as [|c0 cl] eqn:Hcl.
    + rewrite Href. destruct radd, rget; simpl; by rewrite <- app_assoc.
    + rewrite Href. by destruct radd.
  - intros rget. unfold Remote.listCourses.
    destruct (Remote.courseList st) as [|c0 cl]; simpl.
    + by destruct rget.
    + by rewrite app_nil_r.
Qed.

(** X18: in the remote-backed variant [deleteCourse] returns [true]
    exactly when the id is in the local catalog and the backend acknowledges
    the request; in every other case the local catalog is left as it was. *)
Theorem deleteCourse_needs_acknowledgment (st : Remote.State) (cid : key)
    (rdel : Remote.write_response) :
  let r := Remote.deleteCourse st cid rdel in
  (r.2 = true ↔
     is_Some (getCourse (Remote.courseList st) cid) ∧ rdel = Remote.Ok) ∧
  (r.2 = false → Remote.courseList r.1 = Remote.courseList st) ∧
  (r.2 = true →
     length (Remote.courseList r.1) + 1 = length (Remote.courseList st))%nat.
Proof.
  simpl. unfold Remote.deleteCourse, _findCourseIndex, getCourse.
  destruct (list_find _ (Remote.courseList st)) as [[i c]|] eqn:Hf; simpl.
  - apply list_find_Some in Hf as (Hl%lookup_lt_Some & _).
    destruct rdel; simpl.
    + split_and!; [split|..]; try done. by intros [_ ?].
    + split_and!; [split|..]; try done. by intros [_ ?].
    + pose proof (length_delete (Remote.courseList st) i
                    (lookup_lt_is_Some_2 _ _ Hl)) as Hlen.
      split_and!; [split|..]; try done; intros _;
        first [lia | by split; [eexists|]].
  - split_and!; [split|..]; try done. by intros [[? ?] _].
Qed.

Lemma deleteCourse_needs_acknowledgment_witness :
  let st := Remote.set_courseList (Remote.init []) Local.seed in
  let r := Remote.deleteCourse st (KNum 1) Remote.NotOk in
  r.2 = false ∧ Remote.courseList r.1 = Remote.courseList st.
Proof.
  assert ((Remote.deleteCourse
             (Remote.set_courseList (Remote.init []) Local.seed)
             (KNum 1) Remote.NotOk).2 = false) as H by reflexivity.
  split; [exact H|].
  destruct (deleteCourse_needs_acknowledgment
              (Remote.set_courseList (Remote.init []) Local.seed)
              (KNum 1) Remote.NotOk) as (_ & Hkeep & _).
  exact (Hkeep H).
Defined.

(** ** More on lookup, creation and editing *)

(** X19: [getCourse] returns the first course of the catalog whose id is
    the given number, and [null] exactly when no course has it. *)
Theorem getCourse_first_match (cl : list Course) (cid : key) :
  (∀ c, getCourse cl cid = Some c ↔
        ∃ l1 l2, cl = l1 ++ c :: l2 ∧ KNum (id c) = cid ∧
                 Forall (λ c0, KNum (id c0) ≠ cid) l1) ∧
  (getCourse cl cid = None ↔ Forall (λ c0, KNum (id c0) ≠ cid) cl).
Proof.
  split.
  - intros c. rewrite getCourse_find. split.
    + intros (idx & (l1 & l2 & ? & ? & ? & ?)%find_split). eauto.
    + intros (l1 & l2 & Hcl & Hc & Hl1). exists (length l1).
      apply find_split. by exists l1, l2.
  - rewrite <- findCourseIndex_getCourse, <- find_none_iff.
    unfold _findCourseIndex. by destruct (list_find _ cl) as [[i c]|].
Qed.

Lemma str_or_nonempty (v : option string) (d : string) :
  d ≠ "" → str_or v d ≠ "".
Proof.
  intros Hd. unfold str_or. destruct v as [s|]; [|done].
  by destruct (String.eqb_spec s "").
Qed.

(** X20: a course stored by [createCourse] carries the title it was given,
    which is not empty, and the id the module generated, whatever [id] the
    argument had; none of its optional fields is left falsy: it has a
    students array, truthy categories, numeric visits and price, and a
    non-empty duration. *)
Theorem createCourse_normalises (st st' : Local.State)
    (arg : option PartialCourse) (c : Course) :
  Local.createCourse st arg = (st', Some c) →
  ∃ course,
    arg = Some course ∧
    p_title course = Some (title c) ∧ title c ≠ "" ∧
    id c = _generateUniqueCourseId (Local.courseList st) ∧
    is_Some (students c) ∧
    truthy (categories c) = true ∧
    is_Some (visits c) ∧ is_Some (price c) ∧
    (∃ d, duration c = Some d ∧ d ≠ "").
Proof.
  unfold Local.createCourse.
  destruct (has_title arg) as [course|] eqn:Ht; [|done].
  intros [= _ <-]. exists course.
  pose proof (has_title_Some _ _ Ht) as ->.
  unfold has_title in Ht.
  destruct (p_title course) as [t|] eqn:Hpt; [|done].
  destruct (String.eqb_spec t "") as [->|Hne]; [done|].
  simpl. rewrite Hpt. simpl. split_and!; try done.
  - by destruct (truthy (read_categories (p_categories course))) eqn:E.
  - eexists. split; [done|]. by apply str_or_nonempty.
Qed.

Lemma createCourse_normalises_witness :
  let st := Local.init (Local.Catalog Local.seed) true [] in
  let arg := Some (titled "Algebra") in
  let c := newCourse (titled "Algebra") 3 in
  Local.createCourse st arg = ((Local.createCourse st arg).1, Some c) ∧
  ∃ course, arg = Some course ∧ p_title course = Some (title c) ∧
            title c ≠ "".
Proof.
  assert (Local.createCourse
            (Local.init (Local.Catalog Local.seed) true [])
            (Some (titled "Algebra"))
          = ((Local.createCourse
                (Local.init (Local.Catalog Local.seed) true [])
                (Some (titled "Algebra"))).1,
             Some (newCourse (titled "Algebra") 3))) as E
    by (vm_compute; reflexivity).
  split; [exact E|].
  destruct (createCourse_normalises _ _ _ _ E)
    as (course & Harg & Ht & Hne & _).
  exists course. split; [exact Harg|]. split; [exact Ht | exact Hne].
Defined.

(** X21: an [id] in the patch of [editCourse] is written like any other
    field.  Editing one course with the id of another course (and no
    categories in the patch) leaves two courses with the same id in the
    catalog. *)
Theorem editCourse_can_duplicate_id (st : Local.State) (a b : Z)
    (data : PartialCourse) (ca cb : Course) :
  a ≠ b →
  getCourse (Local.courseList st) (KNum a) = Some ca →
  getCourse (Local.courseList st) (KNum b) = Some cb →
  p_id data = Some b →
  p_categories data = None →
  let r := Local.editCourse st (KNum a) data in
  (∃ c', r.2 = Normal (Some c') ∧ id c' = b) ∧
  ¬ NoDup (id <$> Local.courseList r.1).
Proof.
  intros Hab (ia & Hfa)%getCourse_find (ib & Hfb)%getCourse_find Hid Hcat r.
  subst r.
  assert (id (merge ca (with_categories data None)) = b) as Hidc
    by (simpl; by rewrite Hid).
  assert (Local.editCourse st (KNum a) data
          = (Local.saveCourses
               (Local.set_courseList st
                  (<[ia := merge ca (with_categories data None)]>
                     (Local.courseList st))),
             Normal (Some (merge ca (with_categories data None))))) as ->.
  { unfold Local.editCourse, edit, union_categories. by rewrite Hfa, Hcat. }
  cbn [fst snd]. rewrite LocalFacts.courseList_saveCourses.
  cbn [Local.courseList Local.set_courseList].
  split; [eauto|].
  apply list_find_Some in Hfa as (Hla & [= Ha] & _).
  apply list_find_Some in Hfb as (Hlb & [= Hb] & _).
  assert (ia ≠ ib) as Hne by (intros ->; congruence).
  intros Hnd.
  apply Hne. eapply (NoDup_lookup _ ia ib b Hnd).
  - rewrite list_lookup_fmap, list_lookup_insert_eq by (by eapply lookup_lt_Some).
    exact (f_equal Some Hidc).
  - rewrite list_lookup_fmap, list_lookup_insert_ne by done.
    rewrite Hlb. simpl. by rewrite Hb.
Qed.

Lemma editCourse_can_duplicate_id_witness :
  let st := Local.init (Local.Catalog Local.seed) true [] in
  let data := {| p_id := Some 2; p_title := None; p_description := None;
                 p_instructor := None; p_students := None;
                 p_categories := None; p_visits := None; p_price := None;
                 p_duration := None |} in
  1 ≠ 2 ∧
  getCourse (Local.courseList st) (KNum 1) = Some Local.multimedia_basics ∧
  getCourse (Local.courseList st) (KNum 2) = Some Local.graphic_design ∧
  id <$> Local.courseList (Local.editCourse st (KNum 1) data).1 = [2; 2] ∧
  ¬ NoDup (id <$> Local.courseList (Local.editCourse st (KNum 1) data).1).
Proof.
  assert (1 ≠ 2) as Hab by discriminate.
  assert (getCourse
            (Local.courseList (Local.init (Local.Catalog Local.seed) true []))
            (KNum 1) = Some Local.multimedia_basics) as Ha
    by (vm_compute; reflexivity).
  assert (getCourse
            (Local.courseList (Local.init (Local.Catalog Local.seed) true []))
            (KNum 2) = Some Local.graphic_design) as Hb
    by (vm_compute; reflexivity).
  split; [exact Hab|]. split; [exact Ha|]. split; [exact Hb|].
  split; [vm_compute; reflexivity|].
  exact (proj2 (editCourse_can_duplicate_id _ 1 2
                  {| p_id := Some 2; p_title := None; p_description := None;
                     p_instructor := None; p_students := None;
                     p_categories := None; p_visits := None; p_price := None;
                     p_duration := None |} _ _ Hab Ha Hb eq_refl eq_refl)).
Defined.
